(** * Sudoku-Validator: a shallow embedding of [Sudoku-Validator.c]

    The program loads a 9x9 grid of [int]s, starts 27 threads (one per row,
    per column and per 3x3 subgrid), lets each of them write one slot of the
    global [results] table under a mutex, joins them, and reduces the table
    to one verdict.

    Modelling choices.
    - Cell values are C [int]s.  The only arithmetic on them is the
      comparison with 1 and [SIZE] and [num - 1] for a [num] already known
      to be in [1,9]; the counters of [check] are bumped at most twice.
      Nothing can wrap, so cells and counters are plain [Z].
    - Array indices and loop counters are never negative: they are [nat].
    - A thread reads only its private copy of the grid ([memcpy] into
      [params[k].sudoku]) and its stack; its single access to shared memory
      is the critical section that fills its slot of [results].  A run of
      the 27 threads is therefore determined by the order in which they
      enter the critical section: the schedule, a list of thread indices.
    - [inspected] and [trace] are ghost state: the cells a thread has read,
      and the accesses to [results], in order.  *)

From Stdlib Require Import ZArith Lia Ascii String DecimalString.
From stdpp Require Import base list strings.

Open Scope Z_scope.

(** ** Constants and data *)

Definition SIZE : nat := 9.
Definition NUM_THREADS : nat := (SIZE * 3)%nat.

(** [EXIT_SUCCESS] and [EXIT_FAILURE] of <stdlib.h>, with their POSIX values. *)
Definition EXIT_SUCCESS : Z := 0.
Definition EXIT_FAILURE : Z := 1.

(** [int sudoku[SIZE][SIZE]]: a list of rows. *)
Abbreviation Grid := (list (list Z)).

Definition wf_grid (g : Grid) : Prop :=
  length g = SIZE ∧ Forall (λ r : list Z, length r = SIZE) g.

(** [sudoku[r][c]].  On a 9x9 grid with [r, c < 9] the default is never used. *)
Definition cell (g : Grid) (r c : nat) : Z :=
  default 0 (g !! r ≫= λ line : list Z, line !! c).

(** [sudoku[r][c] = v] *)
Definition set_cell (g : Grid) (r c : nat) (v : Z) : Grid :=
  alter (λ line : list Z, <[c := v]> line) r g.

Record parameters := Parameters {
  row : nat;
  col : nat;
  sudoku : Grid
}.

(** [char message[100]] *)
Definition MESSAGE_SIZE : nat := 100.

Record validationResult := ValidationResult {
  valid : Z;          (* 0 for invalid, 1 for valid *)
  message : string    (* char message[100] *)
}.

(** ** [sprintf] with the conversions the program uses: [%d] and [%2d] *)

Definition newline : string := String "010"%char EmptyString.

Definition decimal (n : Z) : string := NilZero.string_of_int (Z.to_int n).

Fixpoint spaces (n : nat) : string :=
  match n with
  | O => EmptyString
  | S n' => String " "%char (spaces n')
  end.

(** Minimum field width, right-justified. *)
Definition pad_left (width : nat) (s : string) : string :=
  spaces (width - String.length s) +:+ s.

Fixpoint sprintf (fmt : string) (args : list Z) : string :=
  match fmt with
  | EmptyString => EmptyString
  | String "%"%char (String "d"%char rest) =>
      match args with
      | a :: args' => decimal a +:+ sprintf rest args'
      | [] => sprintf rest []
      end
  | String "%"%char (String "2"%char (String "d"%char rest)) =>
      match args with
      | a :: args' => pad_left 2 (decimal a) +:+ sprintf rest args'
      | [] => sprintf rest []
      end
  | String ch rest => String ch (sprintf rest args)
  end.

(** ** Loops *)

(** [for (i = lo; i < hi; i += step) body], where the body does not assign
    [i] and may leave the function early ([inr]).  [trips] is the number of
    iterations left. *)
Fixpoint iterate {S E : Type} (trips : nat) (i step : nat)
    (body : nat → S → S + E) (s : S) : S + E :=
  match trips with
  | O => inl s
  | Datatypes.S trips' =>
      match body i s with
      | inl s' => iterate trips' (i + step)%nat step body s'
      | inr e => inr e
      end
  end.

(** Number of values [lo, lo + step, ...] below [hi]. *)
Definition trip_count (lo hi step : nat) : nat :=
  ((hi - lo + (step - 1)) / step)%nat.

Definition for_loop {S E : Type} (lo hi step : nat)
    (body : nat → S → S + E) (s : S) : S + E :=
  iterate (trip_count lo hi step) lo step body s.

(** ** The check threads *)

(** [int check[SIZE] = {0}] *)
Definition check0 : list Z := replicate SIZE 0.

(** The test [num < 1 || num > SIZE || check[num - 1]++] with C's
    left-to-right short-circuit: the counter is read and bumped only when
    [num] is in range.  Returns the truth value and the array afterwards. *)
Definition rejects (num : Z) (check : list Z) : bool * list Z :=
  if num <? 1 then (true, check)
  else if num >? Z.of_nat SIZE then (true, check)
  else
    let k := Z.to_nat (num - 1) in
    (negb (default 0 (check !! k) =? 0), alter Z.succ k check).

(** What a thread has done when it exits: the one slot of [results] it has
    filled, with what, and (ghost) the cells it has read, in order. *)
Record effect := Effect {
  slot : nat;
  outcome : validationResult;
  inspected : list (nat * nat)
}.

Abbreviation scan := (list Z * list (nat * nat))%type.

(** One iteration of the innermost loop: read [sudoku[r][c]], test it. *)
Definition inspect (g : Grid) (r c : nat) (st : scan) : scan + list (nat * nat) :=
  let '(check, seen) := st in
  let num := cell g r c in
  let '(bad, check') := rejects num check in
  if bad then inr (seen ++ [(r, c)]) else inl (check', seen ++ [(r, c)]).

Definition log_of (res : scan + list (nat * nat)) : list (nat * nat) :=
  match res with inl (_, seen) => seen | inr seen => seen end.

Definition verdict_of (res : scan + list (nat * nat)) : Z :=
  match res with inl _ => 1 | inr _ => 0 end.

Definition checkRow (data : parameters) : effect :=
  let r := row data in
  let res := for_loop 0 SIZE 1 (λ i, inspect (sudoku data) r i) (check0, []) in
  let n := Z.of_nat r + 1 in
  match res with
  | inr seen =>
      Effect r
        (ValidationResult 0
           (sprintf ("Thread # %2d (row %d) is INVALID" +:+ newline) [n; n]))
        seen
  | inl (_, seen) =>
      Effect r
        (ValidationResult 1
           (sprintf ("Thread # %2d (row %d) is valid" +:+ newline) [n; n]))
        seen
  end.

Definition checkColumn (data : parameters) : effect :=
  let c := col data in
  let res := for_loop 0 SIZE 1 (λ i, inspect (sudoku data) i c) (check0, []) in
  let idx := (SIZE + c)%nat in
  match res with
  | inr seen =>
      Effect idx
        (ValidationResult 0
           (sprintf ("Thread # %2d (column %d) is INVALID" +:+ newline)
              [Z.of_nat c + 10; Z.of_nat c + 1]))
        seen
  | inl (_, seen) =>
      Effect idx
        (ValidationResult 1
           (sprintf ("Thread # %2d (column %d) is valid" +:+ newline)
              [Z.of_nat c + 10; Z.of_nat c + 1]))
        seen
  end.

Definition checkSubgrid (data : parameters) : effect :=
  let rowStart := row data in
  let colStart := col data in
  let index := ((rowStart / 3) * 3 + colStart / 3 + 2 * SIZE)%nat in
  let res :=
    for_loop rowStart (rowStart + 3) 1
      (λ r st, for_loop colStart (colStart + 3) 1
                 (λ c, inspect (sudoku data) r c) st)
      (check0, []) in
  let args := [Z.of_nat index + 1; Z.of_nat index - 2 * Z.of_nat SIZE + 1] in
  match res with
  | inr seen =>
      Effect index
        (ValidationResult 0
           (sprintf ("Thread # %2d (subgrid %d) is INVALID" +:+ newline) args))
        seen
  | inl (_, seen) =>
      Effect index
        (ValidationResult 1
           (sprintf ("Thread # %2d (subgrid %d) is valid" +:+ newline) args))
        seen
  end.

(** ** [main]: thread creation, join, aggregation, report *)

(** The start routines handed to [pthread_create]. *)
Inductive checker := CheckRow | CheckColumn | CheckSubgrid.

(** [params[k]] together with the routine of [tids[k]]. *)
Record thread := Thread {
  start_routine : checker;
  arg : parameters
}.

Definition run_routine (t : thread) : effect :=
  match start_routine t with
  | CheckRow => checkRow (arg t)
  | CheckColumn => checkColumn (arg t)
  | CheckSubgrid => checkSubgrid (arg t)
  end.

(** A loop whose body has no [break], [return] or [pthread_exit]. *)
Definition for_each {S : Type} (lo hi step : nat) (body : nat → S → S) (s : S) : S :=
  match for_loop (E := Empty_set) lo hi step (λ i st, inl (body i st)) s with
  | inl s' => s'
  | inr e => match e with end
  end.

(** [params[k].row = r; params[k].col = c; memcpy(params[k].sudoku, ...);
    pthread_create(&tids[k], NULL, f, &params[k])].  [None]: no thread has
    been created at index [k]. *)
Definition create (k : nat) (f : checker) (r c : nat) (g : Grid)
    (tids : list (option thread)) : list (option thread) :=
  <[k := Some (Thread f (Parameters r c g))]> tids.

Definition no_threads : list (option thread) := replicate NUM_THREADS None.

Definition spawn_all (g : Grid) : list (option thread) :=
  let tids :=
    for_each 0 SIZE 1
      (λ i tids, create (SIZE + i) CheckColumn 0 i g (create i CheckRow i 0 g tids))
      no_threads in
  for_each 0 SIZE 3
    (λ i tids,
       for_each 0 SIZE 3
         (λ j tids, create (2 * SIZE + (i + j / 3)) CheckSubgrid i j g tids)
         tids)
    tids.

(** Accesses to the global [results], in order (ghost). *)
Inductive event :=
  | Write (tid slot : nat)
  | Read (slot : nat).

Record shared := Shared {
  results : list validationResult;
  trace : list event
}.

(** [validationResult results[NUM_THREADS]] has static storage: zeroed. *)
Definition unset : validationResult := ValidationResult 0 EmptyString.
Definition results0 : list validationResult := replicate NUM_THREADS unset.

(** [results[i]] *)
Definition result_at (tbl : list validationResult) (i : nat) : validationResult :=
  default unset (tbl !! i).

(** Thread [tid] runs to its exit: one critical section. *)
Definition run_thread (tids : list (option thread)) (sh : shared) (tid : nat) : shared :=
  match tids !! tid with
  | Some (Some t) =>
      let e := run_routine t in
      Shared (<[slot e := outcome e]> (results sh))
             (trace sh ++ [Write tid (slot e)])
  | _ => sh
  end.

(** All threads run and are joined; [sched] is the order of their critical
    sections. *)
Definition join_all (tids : list (option thread)) (sched : list nat) (sh : shared) : shared :=
  foldl (run_thread tids) sh sched.

(** [isValid]: the reduction loop of [main], with its [break]. *)
Definition aggregate (sh : shared) : bool * shared :=
  match
    for_loop 0 NUM_THREADS 1
      (λ i tr,
         let tr' := tr ++ [Read i] in
         if valid (result_at (results sh) i) =? 0 then inr tr' else inl tr')
      (trace sh)
  with
  | inl tr => (true, Shared (results sh) tr)
  | inr tr => (false, Shared (results sh) tr)
  end.

(** Both branches of the test on [results[i].valid] print the message. *)
Definition printResults (sh : shared) : list string * shared :=
  for_each 0 NUM_THREADS 1
    (λ i '(out, sh'),
       let r := result_at (results sh') i in
       (out ++ [message r], Shared (results sh') (trace sh' ++ [Read i])))
    ([], sh).

(** The engine: the part of [main] from thread creation to [isValid]. *)
Definition validate (g : Grid) (sched : list nat) : bool * shared :=
  aggregate (join_all (spawn_all g) sched (Shared results0 [])).

(** ** Loading *)

(** [fscanf(file, "%d", &x)].  The source is abstracted to the outcomes of
    the successive conversions it allows: [Some n] when the call converts
    the integer [n] and stores it, [None] when the call fails after
    consuming input (a sign that no digit follows) so that a later call may
    convert again.  After the last recorded outcome every call fails: end
    of file, or a character that starts no integer and is never consumed.
    A call that fails stores nothing and [x] keeps its value.  The return
    value is dropped, as in the source. *)
Definition fscanf_d (stream : list (option Z)) (x : Z) : list (option Z) * Z :=
  match stream with
  | [] => ([], x)
  | None :: rest => (rest, x)
  | Some n :: rest => (rest, n)
  end.

(** [file]: what [fopen] gives, [None] for a null pointer.  [sudoku]: the
    array the caller passes in.  [None]: [exit(EXIT_FAILURE)]. *)
Definition loadSudoku (file : option (list (option Z))) (sudoku : Grid)
    : option Grid :=
  match file with
  | None => None
  | Some stream =>
      Some (snd (for_each 0 SIZE 1
        (λ i st,
           for_each 0 SIZE 1
             (λ j '(stream, g),
                let '(stream', x) := fscanf_d stream (cell g i j) in
                (stream', set_cell g i j x))
             st)
        (stream, sudoku)))
  end.

(** ** The program *)

Record run := Run {
  status : Z;
  stdout : list string;
  tids : list (option thread);
  memory : shared
}.

(** [argv]: the argument vector, [argc] its length.  [fopen]: the file
    system.  [stack]: what the uninitialised local [sudoku] of [main]
    holds.  [sched]: the order of the critical sections.  Of the output
    only [stdout] is kept; the line [perror] sends to [stderr] depends on
    [errno] and is left out. *)
Definition main (argv : list string)
    (fopen : string → option (list (option Z)))
    (stack : Grid) (sched : list nat) : run :=
  let argc := length argv in
  if negb (argc =? 2)%nat then
    Run EXIT_FAILURE
        ["Usage: " +:+ default EmptyString (argv !! 0%nat)
           +:+ " <sudoku_puzzle_file>" +:+ newline]
        no_threads (Shared results0 [])
  else
    let path := default EmptyString (argv !! 1%nat) in
    match loadSudoku (fopen path) stack with
    | None => Run EXIT_FAILURE [] no_threads (Shared results0 [])
    | Some g =>
        let tids := spawn_all g in
        let sh := join_all tids sched (Shared results0 []) in
        let '(isValid, sh) := aggregate sh in
        let '(out, sh) := printResults sh in
        let final :=
          if isValid then path +:+ " contains a valid solution" +:+ newline
          else path +:+ " contains an INVALID solution" +:+ newline in
        Run EXIT_SUCCESS (out ++ [final]) tids sh
    end.

(** ** Vocabulary of the statements *)

(** A legal cell value. *)
Definition in_range (v : Z) : Prop := 1 ≤ v ≤ Z.of_nat SIZE.

#[global] Instance in_range_dec (v : Z) : Decision (in_range v).
Proof. unfold in_range. apply _. Defined.

Definition digits : list Z := [1; 2; 3; 4; 5; 6; 7; 8; 9].

Definition values (g : Grid) (cells : list (nat * nat)) : list Z :=
  (λ rc, cell g rc.1 rc.2) <$> cells.

Inductive kind := Row | Column | Subgrid.

(** One of the 27 groups; [unit_index] is 0..8, for a subgrid row-major by
    block. *)
Record CheckUnit := Unit {
  unit_kind : kind;
  unit_index : nat
}.

#[global] Instance kind_eq_dec : EqDecision kind.
Proof. solve_decision. Defined.

#[global] Instance CheckUnit_eq_dec : EqDecision CheckUnit.
Proof. solve_decision. Defined.

Definition row_cells (i : nat) : list (nat * nat) :=
  (λ j, (i, j)) <$> seq 0 SIZE.

Definition column_cells (i : nat) : list (nat * nat) :=
  (λ j, (j, i)) <$> seq 0 SIZE.

Definition subgrid_cells (br bc : nat) : list (nat * nat) :=
  r ← seq (3 * br) 3; (λ c, (r, c)) <$> seq (3 * bc) 3.

Definition unit_cells (u : CheckUnit) : list (nat * nat) :=
  match unit_kind u with
  | Row => row_cells (unit_index u)
  | Column => column_cells (unit_index u)
  | Subgrid => subgrid_cells (unit_index u / 3) (unit_index u mod 3)
  end.

Definition unit_slot (u : CheckUnit) : nat :=
  match unit_kind u with
  | Row => unit_index u
  | Column => (SIZE + unit_index u)%nat
  | Subgrid => (2 * SIZE + unit_index u)%nat
  end.

(** The 27 units, in slot order. *)
Definition units : list CheckUnit :=
  (Unit Row <$> seq 0 SIZE) ++ (Unit Column <$> seq 0 SIZE)
    ++ (Unit Subgrid <$> seq 0 SIZE).

(** The thread [main] starts for a unit (see [spawn_all_units]). *)
Definition unit_thread (g : Grid) (u : CheckUnit) : thread :=
  match unit_kind u with
  | Row => Thread CheckRow (Parameters (unit_index u) 0 g)
  | Column => Thread CheckColumn (Parameters 0 (unit_index u) g)
  | Subgrid =>
      Thread CheckSubgrid
        (Parameters (3 * (unit_index u / 3)) (3 * (unit_index u mod 3)) g)
  end.

(** Every row, column and subgrid holds the digits 1-9 once each. *)
Definition solved (g : Grid) : Prop :=
  Forall (λ u, values g (unit_cells u) ≡ₚ digits) units.

#[global] Instance solved_dec (g : Grid) : Decision (solved g).
Proof. unfold solved. apply _. Defined.

(** A schedule in which each of the 27 threads runs once. *)
Definition fair (sched : list nat) : Prop := sched ≡ₚ seq 0 NUM_THREADS.

#[global] Instance fair_dec (sched : list nat) : Decision (fair sched).
Proof. unfold fair. apply _. Defined.

(** [sub] occurs in [s]. *)
Fixpoint contains (sub s : string) : bool :=
  String.prefix sub s ||
  match s with
  | EmptyString => false
  | String _ s' => contains sub s'
  end.

Definition kind_name (k : kind) : string :=
  match k with
  | Row => "row"
  | Column => "column"
  | Subgrid => "subgrid"
  end.

(** The line a unit reports: thread number (slot + 1), kind, 1-based index,
    verdict. *)
Definition report (u : CheckUnit) (ok : bool) : string :=
  "Thread # " +:+ pad_left 2 (decimal (Z.of_nat (unit_slot u) + 1))
    +:+ " (" +:+ kind_name (unit_kind u) +:+ " "
    +:+ decimal (Z.of_nat (unit_index u) + 1)
    +:+ ") is " +:+ (if ok then "valid" else "INVALID") +:+ newline.

Definition canonical : Grid :=
  [ [5;3;4;6;7;8;9;1;2];
    [6;7;2;1;9;5;3;4;8];
    [1;9;8;3;4;2;5;6;7];
    [8;5;9;7;6;1;4;2;3];
    [4;2;6;8;5;3;7;9;1];
    [7;1;3;9;2;4;8;5;6];
    [9;6;1;5;3;7;2;8;4];
    [2;8;7;4;1;9;6;3;5];
    [3;4;5;2;8;6;1;7;9] ].

(** A source made of the integers [l] separated by white space: every
    conversion succeeds until they run out. *)
Definition integers (l : list Z) : list (option Z) := Some <$> l.

(** A 9x9 array of zeros, and a file system with one file. *)
Definition zeros : Grid := replicate SIZE (replicate SIZE 0).

Definition one_file (name : string) (content : list (option Z))
    : string → option (list (option Z)) :=
  λ path, if String.eqb path name then Some content else None.

(** ** Auxiliary functions of the proofs *)

(** A loop body applied along a list of counter values, with early exit. *)
Fixpoint run_over {S E : Type} (body : nat → S → S + E) (l : list nat) (s : S) : S + E :=
  match l with
  | [] => inl s
  | i :: l' =>
      match body i s with
      | inl s' => run_over body l' s'
      | inr e => inr e
      end
  end.

(** [inspect] along a list of cells. *)
Fixpoint scan_cells (g : Grid) (cells : list (nat * nat)) (st : scan)
    : scan + list (nat * nat) :=
  match cells with
  | [] => inl st
  | rc :: rest =>
      match inspect g rc.1 rc.2 st with
      | inl st' => scan_cells g rest st'
      | inr e => inr e
      end
  end.

(** [check] records exactly the values of [vs]. *)
Definition marks (check : list Z) (vs : list Z) : Prop :=
  ∀ k, (k < SIZE)%nat →
    check !! k = Some (if decide (Z.of_nat k + 1 ∈ vs) then 1 else 0).

(** [vals] are legal, pairwise distinct and not among [vs]. *)
Definition fresh (vs vals : list Z) : Prop :=
  Forall in_range vals ∧ NoDup vals ∧ ∀ v, v ∈ vals → v ∉ vs.

(** Every thread of the table fills the slot of its own index. *)
Definition owns (tids : list (option thread)) : Prop :=
  ∀ k t, tids !! k = Some (Some t) → slot (run_routine t) = k.

(** The body of the reduction loop of [main]. *)
Definition reduction_body (tbl : list validationResult) (i : nat) (tr : list event)
    : list event + list event :=
  let tr' := tr ++ [Read i] in
  if valid (result_at tbl i) =? 0 then inr tr' else inl tr'.

(** A run that gets past the argument check and [fopen]. *)
Definition engine_run (path : string) (g : Grid) (sched : list nat) : run :=
  let v := validate g sched in
  let p := printResults v.2 in
  Run EXIT_SUCCESS
    (p.1 ++ [if v.1 then path +:+ " contains a valid solution" +:+ newline
             else path +:+ " contains an INVALID solution" +:+ newline])
    (spawn_all g) p.2.

(** The threads that write slot [k] in a trace, in order. *)
Fixpoint writers (k : nat) (tr : list event) : list nat :=
  match tr with
  | [] => []
  | Write tid s :: tr' =>
      if decide (s = k) then tid :: writers k tr' else writers k tr'
  | Read _ :: tr' => writers k tr'
  end.

Definition is_read (e : event) : Prop :=
  match e with Read _ => True | Write _ _ => False end.

(** One [fscanf] of [loadSudoku] and the store that follows it. *)
Definition load_step (st : list (option Z) * Grid) (rc : nat * nat)
    : list (option Z) * Grid :=
  let '(stream, g) := st in
  let '(stream', x) := fscanf_d stream (cell g rc.1 rc.2) in
  (stream', set_cell g rc.1 rc.2 x).

(** The 81 cells in row-major order. *)
Definition all_cells : list (nat * nat) :=
  r ← seq 0 SIZE; (λ c, (r, c)) <$> seq 0 SIZE.

(** * Loops as folds *)

Section Loops.
Context {S E : Type}.
Implicit Types (body : nat → S → S + E) (s : S).

Lemma iterate_unit_step body n : ∀ i s,
  iterate n i 1 body s = run_over body (seq i n) s.
Proof.
  induction n as [|n IH]; intros i s; simpl; [done|].
  destruct (body i s); [|done].
  by rewrite IH, Nat.add_1_r.
Qed.

Lemma trip_count_unit lo n : trip_count lo (lo + n) 1 = n.
Proof.
  unfold trip_count. rewrite Nat.div_1_r. lia.
Qed.

Lemma for_loop_seq body lo n s :
  for_loop lo (lo + n) 1 body s = run_over body (seq lo n) s.
Proof.
  unfold for_loop. by rewrite trip_count_unit, iterate_unit_step.
Qed.

End Loops.

(** * The scan of one unit *)

Section Scan.
Variable g : Grid.
Implicit Types (cells : list (nat * nat)) (st : scan) (check vs : list Z).

Lemma scan_cells_app cells1 cells2 st :
  scan_cells g (cells1 ++ cells2) st =
  match scan_cells g cells1 st with
  | inl st' => scan_cells g cells2 st'
  | inr e => inr e
  end.
Proof.
  revert st. induction cells1 as [|rc cells1 IH]; intros st; simpl; [done|].
  destruct (inspect g rc.1 rc.2 st); [apply IH | done].
Qed.

Lemma run_over_row r (l : list nat) st :
  run_over (λ i, inspect g r i) l st = scan_cells g ((λ j, (r, j)) <$> l) st.
Proof.
  revert st. induction l as [|i l IH]; intros st; simpl; [done|].
  destruct (inspect g r i st); [apply IH | done].
Qed.

Lemma run_over_column c (l : list nat) st :
  run_over (λ i, inspect g i c) l st = scan_cells g ((λ j, (j, c)) <$> l) st.
Proof.
  revert st. induction l as [|i l IH]; intros st; simpl; [done|].
  destruct (inspect g i c st); [apply IH | done].
Qed.

Lemma run_over_block (rows cols : list nat) st :
  run_over (λ r st', run_over (λ c, inspect g r c) cols st') rows st =
  scan_cells g (r ← rows; (λ c, (r, c)) <$> cols) st.
Proof.
  revert st. induction rows as [|r rows IH]; intros st; simpl; [done|].
  rewrite scan_cells_app, run_over_row.
  destruct (scan_cells g _ st); [apply IH | done].
Qed.

Lemma marks_check0 : marks check0 [].
Proof.
  intros k Hk. unfold check0. rewrite lookup_replicate_2 by done.
  rewrite decide_False; [done | by apply not_elem_of_nil].
Qed.

Lemma rejects_bad check vs v :
  marks check vs → ¬ in_range v ∨ v ∈ vs → (rejects v check).1 = true.
Proof.
  intros Hm Hbad. unfold rejects, in_range in *.
  destruct (Z.ltb_spec v 1); [done|].
  destruct (Z.gtb_spec v (Z.of_nat SIZE)); [done|].
  destruct Hbad as [? | Hin]; [lia|]. simpl.
  rewrite (Hm (Z.to_nat (v - 1))) by (unfold SIZE in *; lia).
  rewrite decide_True; [done|].
  by replace (Z.of_nat (Z.to_nat (v - 1)) + 1) with v by lia.
Qed.

Lemma rejects_good check vs v :
  marks check vs → in_range v → v ∉ vs →
  (rejects v check).1 = false ∧ marks (rejects v check).2 (vs ++ [v]).
Proof.
  intros Hm Hr Hfresh. unfold rejects, in_range in *.
  destruct (Z.ltb_spec v 1); [lia|].
  destruct (Z.gtb_spec v (Z.of_nat SIZE)); [lia|]. simpl.
  assert (Hk : (Z.to_nat (v - 1) < SIZE)%nat) by (unfold SIZE in *; lia).
  assert (Hv : Z.of_nat (Z.to_nat (v - 1)) + 1 = v) by lia.
  split.
  - rewrite (Hm _ Hk), Hv. by rewrite decide_False.
  - intros k Hlt. destruct (decide (k = Z.to_nat (v - 1))) as [->|Hne].
    + rewrite list_lookup_alter_eq, (Hm _ Hk), Hv.
      rewrite decide_False by done. simpl.
      rewrite decide_True; [done|]. apply elem_of_app. right. by left.
    + rewrite list_lookup_alter_ne by done. rewrite (Hm _ Hlt).
      assert (Z.of_nat k + 1 ≠ v) by lia.
      destruct (decide (Z.of_nat k + 1 ∈ vs)) as [Hin|Hin].
      * rewrite decide_True; [done|]. apply elem_of_app. by left.
      * rewrite decide_False; [done|]. rewrite elem_of_app, list_elem_of_singleton.
        tauto.
Qed.

Lemma scan_cells_spec cells : ∀ check vs seen,
  marks check vs →
  match scan_cells g cells (check, seen) with
  | inl (check', seen') =>
      seen' = seen ++ cells ∧ marks check' (vs ++ values g cells)
      ∧ fresh vs (values g cells)
  | inr seen' =>
      ∃ pre bad post,
        cells = pre ++ bad :: post ∧ seen' = seen ++ pre ++ [bad]
        ∧ fresh vs (values g pre)
        ∧ (¬ in_range (cell g bad.1 bad.2)
           ∨ cell g bad.1 bad.2 ∈ vs ++ values g pre)
  end.
Proof.
  induction cells as [|[r c] rest IH]; intros check vs seen Hm;
    cbn [scan_cells fst snd].
  - rewrite !app_nil_r. unfold fresh. simpl.
    split_and!; [done | done | constructor | constructor |].
    intros v Hv. by apply elem_of_nil in Hv.
  - unfold inspect.
    destruct (rejects (cell g r c) check) as [bad check'] eqn:Hrej.
    destruct (decide (in_range (cell g r c) ∧ cell g r c ∉ vs))
      as [[Hr Hf]|Hbad].
    + destruct (rejects_good _ _ _ Hm Hr Hf) as [Hb Hm'].
      rewrite Hrej in Hb, Hm'. simpl in Hb, Hm'. subst bad.
      specialize (IH check' (vs ++ [cell g r c]) (seen ++ [(r, c)]) Hm').
      destruct (scan_cells g rest (check', seen ++ [(r, c)])) as [[check'' seen'']|seen''].
      * destruct IH as (-> & Hm'' & Hall & Hnd & Hnot).
        rewrite <- !app_assoc in *. simpl in *.
        unfold fresh. simpl. split_and!; [done | done | | |].
        -- by constructor.
        -- constructor; [|done]. intros Hin. apply (Hnot _ Hin).
           apply elem_of_app. right. by left.
        -- intros v Hv. apply elem_of_cons in Hv as [->|Hv]; [done|].
           intros Hin. apply (Hnot _ Hv). apply elem_of_app. by left.
      * destruct IH as (pre & b & post & -> & -> & (Hall & Hnd & Hnot) & Hb).
        exists ((r, c) :: pre), b, post.
        rewrite <- !app_assoc in *. simpl in *.
        unfold fresh. simpl. split_and!; [done | done | | | | done].
        -- by constructor.
        -- constructor; [|done]. intros Hin. apply (Hnot _ Hin).
           apply elem_of_app. right. by left.
        -- intros v Hv. apply elem_of_cons in Hv as [->|Hv]; [done|].
           intros Hin. apply (Hnot _ Hv). apply elem_of_app. by left.
    + assert (Hb : ¬ in_range (cell g r c) ∨ cell g r c ∈ vs).
      { destruct (decide (in_range (cell g r c))); [|by left].
        destruct (decide (cell g r c ∈ vs)); [by right|]. tauto. }
      pose proof (rejects_bad _ _ _ Hm Hb) as Ht.
      rewrite Hrej in Ht. simpl in Ht. subst bad.
      exists [], (r, c), rest. unfold fresh. simpl. rewrite app_nil_r.
      split_and!; [done | done | constructor | constructor | | done].
      intros v Hv. by apply elem_of_nil in Hv.
Qed.

End Scan.

(** * The three start routines as scans of their cells *)

Lemma run_over_ext {S E : Type} (body1 body2 : nat → S → S + E) l s :
  (∀ i st, body1 i st = body2 i st) →
  run_over body1 l s = run_over body2 l s.
Proof.
  intros Hext. revert s. induction l as [|i l IH]; intros s; simpl; [done|].
  rewrite Hext. destruct (body2 i s); [apply IH | done].
Qed.

Lemma checkRow_scan g r c :
  let res := scan_cells g (row_cells r) (check0, []) in
  slot (checkRow (Parameters r c g)) = r
  ∧ valid (outcome (checkRow (Parameters r c g))) = verdict_of res
  ∧ inspected (checkRow (Parameters r c g)) = log_of res.
Proof.
  unfold checkRow, row_cells. cbn [row col sudoku].
  change (for_loop 0 SIZE) with (for_loop (S := scan) (E := list (nat * nat)) 0 (0 + 9)).
  rewrite for_loop_seq, run_over_row.
  by destruct (scan_cells g _ _) as [[? ?]|?].
Qed.

Lemma checkColumn_scan g r c :
  let res := scan_cells g (column_cells c) (check0, []) in
  slot (checkColumn (Parameters r c g)) = (SIZE + c)%nat
  ∧ valid (outcome (checkColumn (Parameters r c g))) = verdict_of res
  ∧ inspected (checkColumn (Parameters r c g)) = log_of res.
Proof.
  unfold checkColumn, column_cells. cbn [row col sudoku].
  change (for_loop 0 SIZE) with (for_loop (S := scan) (E := list (nat * nat)) 0 (0 + 9)).
  rewrite for_loop_seq, run_over_column.
  by destruct (scan_cells g _ _) as [[? ?]|?].
Qed.

Lemma checkSubgrid_scan g rowStart colStart :
  let res :=
    scan_cells g (r ← seq rowStart 3; (λ c, (r, c)) <$> seq colStart 3)
      (check0, []) in
  slot (checkSubgrid (Parameters rowStart colStart g))
    = (rowStart / 3 * 3 + colStart / 3 + 2 * SIZE)%nat
  ∧ valid (outcome (checkSubgrid (Parameters rowStart colStart g))) = verdict_of res
  ∧ inspected (checkSubgrid (Parameters rowStart colStart g)) = log_of res.
Proof.
  unfold checkSubgrid. cbn [row col sudoku].
  rewrite for_loop_seq.
  rewrite (run_over_ext _ (λ r st, run_over (λ c, inspect g r c) (seq colStart 3) st))
    by (intros; apply for_loop_seq).
  rewrite run_over_block.
  by destruct (scan_cells g _ _) as [[? ?]|?].
Qed.

(** * Units and the threads started for them *)

(** Case analysis on a member of a concrete list. *)
Ltac each_member H :=
  repeat (apply elem_of_cons in H as [->|H]); [..| by apply elem_of_nil in H].

Ltac each_unit H := unfold units in H; simpl in H; each_member H.

Lemma spawn_all_units g :
  spawn_all g = (λ u, Some (unit_thread g u)) <$> units.
Proof. reflexivity. Qed.

Lemma units_lookup k u :
  units !! k = Some u ↔ u ∈ units ∧ unit_slot u = k.
Proof.
  split.
  - intros Hk. split; [by eapply list_elem_of_lookup_2|].
    do 27 (destruct k as [|k]; [by inversion Hk|]). by inversion Hk.
  - intros [Hu <-]. each_unit Hu; reflexivity.
Qed.

Lemma unit_slot_bound u : u ∈ units → (unit_slot u < NUM_THREADS)%nat.
Proof. intros Hu. each_unit Hu; vm_compute; lia. Qed.

Lemma spawn_all_lookup g u :
  u ∈ units → spawn_all g !! unit_slot u = Some (Some (unit_thread g u)).
Proof.
  intros Hu. rewrite spawn_all_units, list_lookup_fmap.
  by rewrite (proj2 (units_lookup _ _) (conj Hu eq_refl)).
Qed.

Lemma spawn_all_inv g k t :
  spawn_all g !! k = Some (Some t) →
  ∃ u, u ∈ units ∧ unit_slot u = k ∧ t = unit_thread g u.
Proof.
  rewrite spawn_all_units, list_lookup_fmap.
  destruct (units !! k) as [u|] eqn:Hk; simpl; [|done].
  intros [= <-]. exists u. by apply units_lookup in Hk as [? ?].
Qed.

Lemma unit_cells_length u : u ∈ units → length (unit_cells u) = SIZE.
Proof. intros Hu. each_unit Hu; reflexivity. Qed.

(** What the thread of a unit does, in terms of the scan of its cells. *)
Lemma unit_run g u :
  let e := run_routine (unit_thread g u) in
  let res := scan_cells g (unit_cells u) (check0, []) in
  slot e = unit_slot u ∧ valid (outcome e) = verdict_of res
  ∧ inspected e = log_of res.
Proof.
  destruct u as [[] i]; unfold run_routine, unit_thread, unit_cells, unit_slot;
    cbn [unit_kind unit_index start_routine arg].
  - apply checkRow_scan.
  - apply checkColumn_scan.
  - destruct (checkSubgrid_scan g (3 * (i / 3)) (3 * (i mod 3))) as (Hs & Hv & Hi).
    split_and!; [|done|done].
    rewrite Hs, !(Nat.mul_comm 3), !Nat.div_mul by done.
    pose proof (Nat.div_mod_eq i 3). unfold SIZE. lia.
Qed.

Lemma verdict_cases res : verdict_of res = 0 ∨ verdict_of res = 1.
Proof. destruct res; [by right | by left]. Qed.

(** * A scan accepts exactly the lists of distinct legal values *)

Lemma scan_verdict g cells :
  verdict_of (scan_cells g cells (check0, [])) = 1
  ↔ Forall in_range (values g cells) ∧ NoDup (values g cells).
Proof.
  pose proof (scan_cells_spec g cells check0 [] [] marks_check0) as Hspec.
  destruct (scan_cells g cells (check0, [])) as [[check seen]|seen]; simpl.
  - destruct Hspec as (_ & _ & Hall & Hnd & _). by split.
  - destruct Hspec as (pre & bad & post & -> & _ & _ & Hbad).
    split; [done|]. intros [Hall Hnd]. exfalso.
    unfold values in Hall, Hnd. rewrite fmap_app, fmap_cons in Hall, Hnd.
    apply Forall_app in Hall as [_ Hall]. apply Forall_cons in Hall as [Hr _].
    destruct Hbad as [Hbad|Hin]; [done|]. simpl in Hin.
    apply NoDup_app in Hnd as (_ & Hdis & _).
    apply (Hdis _ Hin). by left.
Qed.

Lemma in_range_digits v : in_range v ↔ v ∈ digits.
Proof.
  unfold in_range, digits, SIZE. split.
  - intros Hv.
    assert (v = 1 ∨ v = 2 ∨ v = 3 ∨ v = 4 ∨ v = 5 ∨ v = 6 ∨ v = 7 ∨ v = 8 ∨ v = 9)
      as Hcases by lia.
    repeat (destruct Hcases as [->|Hcases]); subst;
      rewrite !elem_of_cons; tauto.
  - intros Hv. each_member Hv; lia.
Qed.

Lemma digits_NoDup : NoDup digits.
Proof. refine (bool_decide_unpack _ _). by vm_compute. Qed.

(** Nine distinct legal values are the nine digits. *)
Lemma distinct_digits (vals : list Z) :
  length vals = SIZE →
  (Forall in_range vals ∧ NoDup vals ↔ vals ≡ₚ digits).
Proof.
  intros Hlen. split.
  - intros [Hall Hnd]. apply submseteq_length_Permutation.
    + apply NoDup_submseteq; [done|]. intros v Hv. apply in_range_digits.
      by eapply Forall_forall.
    + by rewrite Hlen.
  - intros Hp. split.
    + rewrite Hp. apply Forall_forall. intros v. apply in_range_digits.
    + rewrite Hp. apply digits_NoDup.
Qed.

Lemma values_length g cells : length (values g cells) = length cells.
Proof. apply length_fmap. Qed.

(** * Running and joining the threads *)

Lemma spawn_all_owns g : owns (spawn_all g).
Proof.
  intros k t Hk. apply spawn_all_inv in Hk as (u & _ & <- & ->).
  apply unit_run.
Qed.

Section Join.
Variable tids : list (option thread).
Hypothesis Hown : owns tids.

Lemma join_all_snoc sched tid sh :
  join_all tids (sched ++ [tid]) sh = run_thread tids (join_all tids sched sh) tid.
Proof. apply foldl_snoc. Qed.

Lemma run_thread_length sh tid :
  length (results (run_thread tids sh tid)) = length (results sh).
Proof.
  unfold run_thread. destruct (tids !! tid) as [[t|]|]; [|done|done].
  apply length_insert.
Qed.

Lemma join_all_length sched sh :
  length (results (join_all tids sched sh)) = length (results sh).
Proof.
  induction sched as [|tid sched IH] using rev_ind; [done|].
  by rewrite join_all_snoc, run_thread_length.
Qed.

Lemma run_thread_other sh tid k :
  k ≠ tid → results (run_thread tids sh tid) !! k = results sh !! k.
Proof.
  intros Hne. unfold run_thread.
  destruct (tids !! tid) as [[t|]|] eqn:Ht; [|done|done].
  simpl. rewrite list_lookup_insert_ne; [done|].
  rewrite (Hown _ _ Ht). congruence.
Qed.

(** A slot whose thread has run holds that thread's outcome, whatever ran
    before or after. *)
Lemma join_all_written sched : ∀ sh k t,
  tids !! k = Some (Some t) → k ∈ sched → (k < length (results sh))%nat →
  results (join_all tids sched sh) !! k = Some (outcome (run_routine t)).
Proof.
  induction sched as [|tid sched IH] using rev_ind; intros sh k t Ht Hin Hlen.
  - by apply elem_of_nil in Hin.
  - rewrite join_all_snoc. destruct (decide (k = tid)) as [->|Hne].
    + unfold run_thread. rewrite Ht. simpl. rewrite (Hown _ _ Ht).
      apply list_lookup_insert_eq. by rewrite join_all_length.
    + rewrite run_thread_other by done. apply IH; [done| |done].
      apply elem_of_app in Hin as [?|Hin]; [done|].
      apply list_elem_of_singleton in Hin. congruence.
Qed.

(** The accesses of the threads: one write each, to the slot of its index. *)
Lemma join_all_trace sched : ∀ sh,
  (∀ k, k ∈ sched → ∃ t, tids !! k = Some (Some t)) →
  trace (join_all tids sched sh) = trace sh ++ ((λ k, Write k k) <$> sched).
Proof.
  induction sched as [|tid sched IH] using rev_ind; intros sh Hall.
  - simpl. by rewrite app_nil_r.
  - rewrite join_all_snoc, fmap_app, app_assoc. simpl.
    destruct (Hall tid) as [t Ht]; [apply elem_of_app; right; by left|].
    unfold run_thread. rewrite Ht. simpl. rewrite (Hown _ _ Ht).
    rewrite IH; [done|]. intros k Hk. apply Hall. apply elem_of_app. by left.
Qed.

End Join.

Lemma fair_elem sched k : fair sched → (k < NUM_THREADS)%nat → k ∈ sched.
Proof.
  unfold fair. intros Hf Hk. rewrite Hf. apply elem_of_seq. lia.
Qed.

Lemma fair_bound sched k : fair sched → k ∈ sched → (k < NUM_THREADS)%nat.
Proof.
  unfold fair. intros Hf Hk. rewrite Hf in Hk. apply elem_of_seq in Hk. lia.
Qed.

Lemma results0_length : length results0 = NUM_THREADS.
Proof. apply length_replicate. Qed.

(** After the join, the slot of a unit holds the outcome of its thread. *)
Lemma joined_unit g sched sh u :
  fair sched → length (results sh) = NUM_THREADS → u ∈ units →
  result_at (results (join_all (spawn_all g) sched sh)) (unit_slot u)
  = outcome (run_routine (unit_thread g u)).
Proof.
  intros Hf Hlen Hu. unfold result_at.
  rewrite (join_all_written _ (spawn_all_owns g) sched sh _ (unit_thread g u)).
  - done.
  - by apply spawn_all_lookup.
  - apply fair_elem; [done|]. by apply unit_slot_bound.
  - rewrite Hlen. by apply unit_slot_bound.
Qed.

(** * The reduction loop *)

Lemma reduction_spec tbl n : ∀ lo tr,
  match run_over (reduction_body tbl) (seq lo n) tr with
  | inl tr' =>
      (∀ i, (lo ≤ i < lo + n)%nat → valid (result_at tbl i) ≠ 0)
      ∧ tr' = tr ++ (Read <$> seq lo n)
  | inr tr' =>
      ∃ i, (lo ≤ i < lo + n)%nat ∧ valid (result_at tbl i) = 0
           ∧ tr' = tr ++ (Read <$> seq lo (S (i - lo)))
  end.
Proof.
  induction n as [|n IH]; intros lo tr; simpl.
  - split; [lia | by rewrite app_nil_r].
  - unfold reduction_body at 1.
    destruct (Z.eqb_spec (valid (result_at tbl lo)) 0) as [Hz|Hnz].
    + exists lo. split; [lia|]. split; [done|]. by rewrite Nat.sub_diag.
    + specialize (IH (S lo) (tr ++ [Read lo])).
      destruct (run_over _ (seq (S lo) n) _) as [tr'|tr'].
      * destruct IH as [Hall ->]. split.
        -- intros i Hi. destruct (decide (i = lo)) as [->|]; [done|].
           apply Hall. lia.
        -- by rewrite <- app_assoc.
      * destruct IH as (i & Hi & Hz & ->). exists i.
        split; [lia|]. split; [done|].
        replace (i - lo)%nat with (S (i - S lo)) by lia.
        by rewrite <- app_assoc.
Qed.

Lemma aggregate_run sh :
  aggregate sh =
  match run_over (reduction_body (results sh)) (seq 0 NUM_THREADS) (trace sh) with
  | inl tr => (true, Shared (results sh) tr)
  | inr tr => (false, Shared (results sh) tr)
  end.
Proof.
  unfold aggregate.
  change (for_loop 0 NUM_THREADS) with
    (for_loop (S := list event) (E := list event) 0 (0 + NUM_THREADS)).
  by rewrite for_loop_seq.
Qed.

Lemma aggregate_results sh : results (aggregate sh).2 = results sh.
Proof.
  rewrite aggregate_run. by destruct (run_over _ _ _).
Qed.

(** [isValid] is true exactly when no slot holds 0. *)
Lemma aggregate_true sh :
  (aggregate sh).1 = true
  ↔ ∀ i, (i < NUM_THREADS)%nat → valid (result_at (results sh) i) ≠ 0.
Proof.
  rewrite aggregate_run.
  pose proof (reduction_spec (results sh) NUM_THREADS 0%nat (trace sh)) as Hspec.
  destruct (run_over _ _ _) as [tr|tr]; simpl.
  - destruct Hspec as [Hall _]. split; [|done]. intros _ i Hi. apply Hall. lia.
  - destruct Hspec as (i & Hi & Hz & _). split; [done|].
    intros Hall. exfalso. apply (Hall i); [lia | done].
Qed.

(** * The table after the join *)

Lemma unit_valid_cases g u :
  valid (outcome (run_routine (unit_thread g u))) = 0
  ∨ valid (outcome (run_routine (unit_thread g u))) = 1.
Proof.
  destruct (unit_run g u) as (_ & -> & _). apply verdict_cases.
Qed.

Lemma unit_valid_iff g u :
  valid (outcome (run_routine (unit_thread g u))) = 1
  ↔ Forall in_range (values g (unit_cells u)) ∧ NoDup (values g (unit_cells u)).
Proof.
  destruct (unit_run g u) as (_ & -> & _). apply scan_verdict.
Qed.

Lemma unit_message g u :
  u ∈ units →
  message (outcome (run_routine (unit_thread g u)))
  = report u (bool_decide (valid (outcome (run_routine (unit_thread g u))) = 1)).
Proof.
  intros Hu.
  each_unit Hu;
    unfold run_routine, unit_thread, checkRow, checkColumn, checkSubgrid;
    cbn [unit_kind unit_index start_routine arg row col sudoku];
    match goal with
    | |- context [for_loop ?lo ?hi ?st ?body ?s] =>
        destruct (for_loop lo hi st body s) as [[? ?]|?]
    end; reflexivity.
Qed.

Lemma units_length : length units = NUM_THREADS.
Proof. reflexivity. Qed.

Lemma slot_unit k : (k < NUM_THREADS)%nat → ∃ u, u ∈ units ∧ unit_slot u = k.
Proof.
  intros Hk. destruct (lookup_lt_is_Some_2 units k) as [u Hu].
  - by rewrite units_length.
  - exists u. by apply units_lookup.
Qed.

(** The final table lists the outcomes of the 27 units in slot order,
    whatever the schedule. *)
Lemma joined_results g sched :
  fair sched →
  results (join_all (spawn_all g) sched (Shared results0 []))
  = (λ u, outcome (run_routine (unit_thread g u))) <$> units.
Proof.
  intros Hf. apply list_eq. intros k. rewrite list_lookup_fmap.
  destruct (decide (k < NUM_THREADS)%nat) as [Hk|Hk].
  - destruct (slot_unit k Hk) as (u & Hu & <-).
    rewrite (proj2 (units_lookup _ _) (conj Hu eq_refl)). simpl.
    rewrite (join_all_written _ (spawn_all_owns g) sched _ _ (unit_thread g u)).
    + done.
    + by apply spawn_all_lookup.
    + by apply fair_elem.
    + exact Hk.
  - rewrite !lookup_ge_None_2; [done | |].
    + rewrite units_length. lia.
    + rewrite join_all_length. cbn [results]. rewrite results0_length. lia.
Qed.

Lemma validate_results g sched :
  fair sched →
  results (validate g sched).2
  = (λ u, outcome (run_routine (unit_thread g u))) <$> units.
Proof.
  intros Hf. unfold validate. by rewrite aggregate_results, joined_results.
Qed.

Lemma validate_result_at g sched u :
  fair sched → u ∈ units →
  result_at (results (validate g sched).2) (unit_slot u)
  = outcome (run_routine (unit_thread g u)).
Proof.
  intros Hf Hu. unfold result_at. rewrite validate_results by done.
  rewrite list_lookup_fmap.
  by rewrite (proj2 (units_lookup _ _) (conj Hu eq_refl)).
Qed.

(** [isValid] is true exactly when every unit is valid. *)
Lemma validate_true g sched :
  fair sched →
  ((validate g sched).1 = true
   ↔ ∀ u, u ∈ units → valid (outcome (run_routine (unit_thread g u))) = 1).
Proof.
  intros Hf. unfold validate. rewrite aggregate_true. split.
  - intros Hall u Hu.
    specialize (Hall (unit_slot u) (unit_slot_bound u Hu)).
    rewrite joined_unit in Hall by (done || apply results0_length).
    destruct (unit_valid_cases g u); [done|done].
  - intros Hall k Hk. destruct (slot_unit k Hk) as (u & Hu & <-).
    rewrite joined_unit by (done || apply results0_length).
    rewrite (Hall u Hu). lia.
Qed.

(** * The report and the program *)

Lemma for_each_seq {S : Type} (body : nat → S → S) lo n s :
  for_each lo (lo + n) 1 body s = foldl (λ st i, body i st) s (seq lo n).
Proof.
  unfold for_each. rewrite for_loop_seq.
  revert lo s. induction n as [|n IH]; intros lo s; simpl; [done|].
  apply IH.
Qed.

Lemma printResults_spec sh :
  printResults sh
  = ((λ i, message (result_at (results sh) i)) <$> seq 0 NUM_THREADS,
     Shared (results sh) (trace sh ++ (Read <$> seq 0 NUM_THREADS))).
Proof.
  unfold printResults.
  change (for_each 0 NUM_THREADS) with
    (for_each (S := list string * shared) 0 (0 + NUM_THREADS)).
  rewrite for_each_seq.
  assert (Hgen : ∀ (l : list nat) out sh0,
    foldl (λ (st : list string * shared) i,
             let '(out, sh') := st in
             (out ++ [message (result_at (results sh') i)],
              Shared (results sh') (trace sh' ++ [Read i])))
          (out, sh0) l
    = (out ++ ((λ i, message (result_at (results sh0) i)) <$> l),
       Shared (results sh0) (trace sh0 ++ (Read <$> l)))).
  { induction l as [|i l IH]; intros out sh0; simpl.
    - rewrite !app_nil_r. by destruct sh0.
    - rewrite IH. simpl. by rewrite <- !app_assoc. }
  apply (Hgen _ [] sh).
Qed.

Lemma main_loaded argv fopen stack sched g :
  length argv = 2%nat →
  loadSudoku (fopen (default EmptyString (argv !! 1%nat))) stack = Some g →
  main argv fopen stack sched
  = engine_run (default EmptyString (argv !! 1%nat)) g sched.
Proof.
  intros Hargc Hload. unfold main, engine_run, validate.
  rewrite Hargc, Hload. cbn [Nat.eqb negb].
  destruct (aggregate _) as [isValid sh]. cbn [fst snd].
  by destruct (printResults sh).
Qed.

Lemma main_usage argv fopen stack sched :
  length argv ≠ 2%nat →
  status (main argv fopen stack sched) = EXIT_FAILURE
  ∧ tids (main argv fopen stack sched) = no_threads
  ∧ memory (main argv fopen stack sched) = Shared results0 [].
Proof.
  intros Hargc. unfold main.
  by destruct (Nat.eqb_spec (length argv) 2).
Qed.

Lemma main_unopened argv fopen stack sched :
  length argv = 2%nat →
  fopen (default EmptyString (argv !! 1%nat)) = None →
  status (main argv fopen stack sched) = EXIT_FAILURE
  ∧ tids (main argv fopen stack sched) = no_threads
  ∧ memory (main argv fopen stack sched) = Shared results0 [].
Proof.
  intros Hargc Hopen. unfold main. by rewrite Hargc, Hopen.
Qed.

Lemma loadSudoku_opened stream stack :
  ∃ g, loadSudoku (Some stream) stack = Some g.
Proof. by eexists. Qed.

Lemma engine_run_stdout path g sched u :
  fair sched → u ∈ units →
  stdout (engine_run path g sched) !! unit_slot u
  = Some (message (outcome (run_routine (unit_thread g u)))).
Proof.
  intros Hf Hu. unfold engine_run. rewrite printResults_spec.
  cbn [stdout fst snd].
  pose proof (unit_slot_bound u Hu) as Hlt.
  rewrite lookup_app_l by (rewrite length_fmap, length_seq; exact Hlt).
  rewrite list_lookup_fmap, lookup_seq_lt by exact Hlt.
  cbn [fmap option_fmap option_map Nat.add].
  by rewrite validate_result_at.
Qed.

Lemma engine_run_results path g sched :
  results (memory (engine_run path g sched)) = results (validate g sched).2.
Proof. unfold engine_run. by rewrite printResults_spec. Qed.

Lemma engine_run_lines path g sched :
  length (stdout (engine_run path g sched)) = S NUM_THREADS.
Proof.
  unfold engine_run. rewrite printResults_spec. cbn [stdout fst snd].
  rewrite length_app, length_fmap, length_seq. cbn [length]. lia.
Qed.

(** * Validity of units and of the grid *)

Lemma fair_reversed : fair (rev (seq 0 NUM_THREADS)).
Proof. unfold fair. symmetry. apply Permutation_rev. Qed.

Lemma canonical_solved : solved canonical.
Proof. refine (bool_decide_unpack _ _). by vm_compute. Qed.

Lemma solved_unit_valid g u :
  solved g → u ∈ units →
  valid (outcome (run_routine (unit_thread g u))) = 1.
Proof.
  intros Hs Hu. apply unit_valid_iff.
  apply distinct_digits.
  - rewrite values_length. by apply unit_cells_length.
  - unfold solved in Hs. rewrite Forall_forall in Hs. by apply Hs.
Qed.

(** C1. [validate] returns, for every grid, an overall boolean that is the
    conjunction of the [valid] fields of the 27 outcomes of the table; on a
    grid whose rows, columns and subgrids are all permutations of 1-9 the
    boolean is true and each of the 27 outcomes has [valid = 1]. *)
Theorem validate_conjunction g sched :
  fair sched →
  length (results (validate g sched).2) = NUM_THREADS
  ∧ (validate g sched).1
    = forallb (λ r, bool_decide (valid r = 1)) (results (validate g sched).2)
  ∧ (solved g →
     (validate g sched).1 = true
     ∧ Forall (λ r, valid r = 1) (results (validate g sched).2)).
Proof.
  intros Hf. rewrite validate_results by done. split_and!.
  - by rewrite length_fmap, units_length.
  - destruct (validate g sched).1 eqn:Hv; symmetry.
    + apply forallb_forall. intros r Hr.
      apply list_elem_of_In, list_elem_of_fmap in Hr as (u & -> & Hu).
      apply bool_decide_eq_true. by apply (proj1 (validate_true g sched Hf) Hv).
    + apply not_true_iff_false. intros Hall.
      rewrite forallb_forall in Hall.
      assert ((validate g sched).1 = true) as Ht; [|congruence].
      apply (proj2 (validate_true g sched Hf)). intros u Hu.
      eapply bool_decide_eq_true, Hall, list_elem_of_In, list_elem_of_fmap.
      by exists u.
  - intros Hs. split.
    + apply (proj2 (validate_true g sched Hf)). intros u Hu.
      by apply solved_unit_valid.
    + apply Forall_fmap, Forall_forall. intros u Hu. by apply solved_unit_valid.
Qed.

Lemma validate_conjunction_witness :
  fair (rev (seq 0 NUM_THREADS)) ∧ solved canonical
  ∧ (validate canonical (rev (seq 0 NUM_THREADS))).1 = true
  ∧ Forall (λ r, valid r = 1)
      (results (validate canonical (rev (seq 0 NUM_THREADS))).2).
Proof.
  split; [exact fair_reversed|]. split; [exact canonical_solved|].
  exact (proj2 (proj2 (validate_conjunction canonical _ fair_reversed))
           canonical_solved).
Defined.

(** C2. For every grid and each of the 27 units, the outcome in the unit's
    slot has [valid = 1] exactly when the unit's nine cells all lie in
    [1,9] and are pairwise distinct, that is, when they are the digits 1-9
    each once; otherwise it has [valid = 0]. *)
Theorem unit_valid_iff_digits_once g sched u :
  fair sched → u ∈ units →
  let r := result_at (results (validate g sched).2) (unit_slot u) in
  (valid r = 1
   ↔ Forall in_range (values g (unit_cells u)) ∧ NoDup (values g (unit_cells u)))
  ∧ (valid r = 1 ↔ values g (unit_cells u) ≡ₚ digits)
  ∧ (valid r = 0 ∨ valid r = 1).
Proof.
  intros Hf Hu r. subst r. rewrite validate_result_at by done. split_and!.
  - apply unit_valid_iff.
  - rewrite unit_valid_iff. apply distinct_digits.
    rewrite values_length. by apply unit_cells_length.
  - apply unit_valid_cases.
Qed.

Lemma unit_valid_iff_digits_once_witness :
  fair (rev (seq 0 NUM_THREADS)) ∧ Unit Subgrid 4 ∈ units
  ∧ (valid (result_at (results (validate canonical (rev (seq 0 NUM_THREADS))).2) 22) = 1
     ↔ values canonical (subgrid_cells 1 1) ≡ₚ digits).
Proof.
  assert (Hu : Unit Subgrid 4 ∈ units).
  { refine (bool_decide_unpack _ _). by vm_compute. }
  split; [exact fair_reversed|]. split; [exact Hu|].
  exact (proj1 (proj2
    (unit_valid_iff_digits_once canonical _ (Unit Subgrid 4) fair_reversed Hu))).
Defined.

(** * Cells out of range *)

Lemma out_of_range_invalid g u r c :
  (r, c) ∈ unit_cells u → ¬ in_range (cell g r c) →
  valid (outcome (run_routine (unit_thread g u))) = 0.
Proof.
  intros Hin Hbad. destruct (unit_valid_cases g u) as [?|Hv]; [done|].
  exfalso. apply unit_valid_iff in Hv as [Hall _].
  rewrite Forall_forall in Hall. apply Hbad, Hall.
  apply list_elem_of_fmap. by exists (r, c).
Qed.

Lemma validate_false g sched u :
  fair sched → u ∈ units →
  valid (outcome (run_routine (unit_thread g u))) = 0 →
  (validate g sched).1 = false.
Proof.
  intros Hf Hu Hz. apply not_true_iff_false. intros Ht.
  rewrite validate_true in Ht by done. specialize (Ht u Hu). congruence.
Qed.

(** C3. When a cell of the loaded grid is outside [1,9], every unit that
    contains the cell gets an outcome with [valid = 0], the overall verdict
    is false, and that is all that happens: the program still reports all
    27 units (the unit's line says INVALID) plus the summary and exits
    with [EXIT_SUCCESS]. *)
Theorem out_of_range_is_ordinary_invalid argv fopen stack sched g r c u :
  length argv = 2%nat →
  loadSudoku (fopen (default EmptyString (argv !! 1%nat))) stack = Some g →
  fair sched → u ∈ units → (r, c) ∈ unit_cells u → ¬ in_range (cell g r c) →
  let out := main argv fopen stack sched in
  valid (result_at (results (validate g sched).2) (unit_slot u)) = 0
  ∧ (validate g sched).1 = false
  ∧ status out = EXIT_SUCCESS
  ∧ results (memory out) = results (validate g sched).2
  ∧ stdout out !! unit_slot u = Some (report u false)
  ∧ length (stdout out) = S NUM_THREADS.
Proof.
  intros Hargc Hload Hf Hu Hin Hbad out. subst out.
  pose proof (out_of_range_invalid g u r c Hin Hbad) as Hz.
  rewrite (main_loaded _ _ _ _ g) by done.
  rewrite validate_result_at by done. split_and!.
  - done.
  - by eapply validate_false.
  - done.
  - apply engine_run_results.
  - rewrite engine_run_stdout, unit_message by done. by rewrite Hz.
  - apply engine_run_lines.
Qed.

Lemma out_of_range_is_ordinary_invalid_witness :
  let argv := ["sudoku"; "puzzle.txt"] in
  let g := set_cell canonical 4 4 0 in
  let fopen := one_file "puzzle.txt" (integers (concat g)) in
  let out := main argv fopen zeros (rev (seq 0 NUM_THREADS)) in
  cell g 4 4 = 0
  ∧ status out = EXIT_SUCCESS
  ∧ stdout out !! 22%nat = Some (report (Unit Subgrid 4) false)
  ∧ (validate g (rev (seq 0 NUM_THREADS))).1 = false.
Proof.
  intros argv g fopen out.
  assert (Hu : Unit Subgrid 4 ∈ units).
  { refine (bool_decide_unpack _ _). by vm_compute. }
  assert (Hin : (4%nat, 4%nat) ∈ unit_cells (Unit Subgrid 4)).
  { refine (bool_decide_unpack _ _). by vm_compute. }
  assert (Hcell : cell g 4 4 = 0) by reflexivity.
  assert (Hbad : ¬ in_range (cell g 4 4)) by (unfold in_range; rewrite Hcell; lia).
  assert (Hload :
    loadSudoku (fopen (default EmptyString (argv !! 1%nat))) zeros = Some g)
    by reflexivity.
  pose proof (out_of_range_is_ordinary_invalid argv fopen zeros
    (rev (seq 0 NUM_THREADS)) g 4 4 (Unit Subgrid 4)
    eq_refl Hload fair_reversed Hu Hin Hbad) as (_ & Hv & Hst & _ & Hout & _).
  split; [exact Hcell|]. split; [exact Hst|]. split; [exact Hout | exact Hv].
Defined.

(** * One cell overwritten with a value of its row *)

Lemma cell_lookup g r c :
  cell g r c ≠ 0 → ∃ line, g !! r = Some line ∧ line !! c = Some (cell g r c).
Proof.
  unfold cell. destruct (g !! r) as [line|]; simpl; [|done].
  destruct (line !! c) as [v|] eqn:Hc; simpl; [|done]. intros _. by exists line.
Qed.

Lemma cell_set_cell_same g r c v line :
  g !! r = Some line → (c < length line)%nat → cell (set_cell g r c v) r c = v.
Proof.
  intros Hr Hc. unfold cell, set_cell.
  rewrite list_lookup_alter_eq, Hr. simpl.
  by rewrite list_lookup_insert_eq.
Qed.

Lemma cell_set_cell_other g r c v r' c' :
  (r', c') ≠ (r, c) → cell (set_cell g r c v) r' c' = cell g r' c'.
Proof.
  intros Hne. unfold cell, set_cell.
  destruct (decide (r' = r)) as [->|Hr].
  - rewrite list_lookup_alter_eq. destruct (g !! r) as [line|]; simpl; [|done].
    rewrite list_lookup_insert_ne; [done|]. congruence.
  - by rewrite list_lookup_alter_ne.
Qed.

Lemma row_unit_elem r : (r < SIZE)%nat → Unit Row r ∈ units.
Proof.
  intros Hr. unfold units. apply elem_of_app. left.
  apply list_elem_of_fmap. exists r. split; [done|]. apply elem_of_seq. lia.
Qed.

Lemma row_cells_lookup r c : (c < SIZE)%nat → row_cells r !! c = Some (r, c).
Proof.
  intros Hc. unfold row_cells. by rewrite list_lookup_fmap, lookup_seq_lt.
Qed.

Lemma values_lookup g cells i rc :
  cells !! i = Some rc → values g cells !! i = Some (cell g rc.1 rc.2).
Proof. intros Hi. unfold values. by rewrite list_lookup_fmap, Hi. Qed.

Section Overwrite.
Variables (g : Grid) (r c c' : nat).
Hypothesis Hsolved : solved g.
Hypotheses (Hr : (r < SIZE)%nat) (Hc : (c < SIZE)%nat) (Hc' : (c' < SIZE)%nat).
Hypothesis Hne : c' ≠ c.

Let v := cell g r c'.
Let g' := set_cell g r c v.

Lemma solved_unit u : u ∈ units → values g (unit_cells u) ≡ₚ digits.
Proof.
  intros Hu. unfold solved in Hsolved. rewrite Forall_forall in Hsolved.
  by apply Hsolved.
Qed.

Lemma solved_row_distinct : cell g r c ≠ v ∧ in_range v.
Proof.
  pose proof (solved_unit _ (row_unit_elem r Hr)) as Hp.
  apply distinct_digits in Hp as [Hall Hnd]; [|by rewrite values_length].
  split.
  - intros Heq. apply Hne.
    eapply (proj1 (NoDup_alt _) Hnd c' c v).
    + apply (values_lookup g _ _ (r, c')), row_cells_lookup, Hc'.
    + rewrite <- Heq. apply (values_lookup g _ _ (r, c)), row_cells_lookup, Hc.
  - rewrite Forall_forall in Hall. apply Hall.
    apply list_elem_of_fmap. exists (r, c'). split; [done|].
    eapply list_elem_of_lookup_2, row_cells_lookup, Hc'.
Qed.

Lemma overwritten_cell : cell g' r c = v.
Proof.
  pose proof (solved_unit _ (row_unit_elem r Hr)) as Hp.
  apply distinct_digits in Hp as [Hall _]; [|by rewrite values_length].
  assert (in_range (cell g r c)) as Hin.
  { rewrite Forall_forall in Hall. apply Hall.
    apply list_elem_of_fmap. exists (r, c). split; [done|].
    eapply list_elem_of_lookup_2, row_cells_lookup, Hc. }
  destruct (cell_lookup g r c) as (line & Hline & Hcell).
  { unfold in_range in Hin. lia. }
  apply (cell_set_cell_same g r c v line Hline).
  by eapply lookup_lt_Some.
Qed.

Lemma untouched_unit_values u :
  (r, c) ∉ unit_cells u → values g' (unit_cells u) = values g (unit_cells u).
Proof.
  intros Hnot. unfold values. apply list_fmap_ext. intros i [r1 c1] Hi. simpl.
  apply cell_set_cell_other. intros Heq. apply Hnot. rewrite <- Heq.
  by eapply list_elem_of_lookup_2.
Qed.

Lemma touched_unit_duplicate u :
  u ∈ units → (r, c) ∈ unit_cells u → ¬ NoDup (values g' (unit_cells u)).
Proof.
  intros Hu Hin Hnd.
  destruct solved_row_distinct as [Hdiff Hv].
  assert (v ∈ values g (unit_cells u)) as Hocc.
  { rewrite (solved_unit u Hu). by apply in_range_digits. }
  apply list_elem_of_fmap in Hocc as ([r1 c1] & Hval & Hcell). simpl in Hval.
  assert ((r1, c1) ≠ (r, c)) as Hother by (intros [= -> ->]; congruence).
  apply list_elem_of_lookup in Hin as [i Hi].
  apply list_elem_of_lookup in Hcell as [j Hj].
  assert (i = j) as ->.
  { apply (proj1 (NoDup_alt _) Hnd i j v).
    - rewrite (values_lookup g' _ _ _ Hi). simpl. by rewrite overwritten_cell.
    - rewrite (values_lookup g' _ _ _ Hj). simpl. unfold g'.
      by rewrite cell_set_cell_other, <- Hval. }
  congruence.
Qed.

Lemma overwritten_unit_verdict u :
  u ∈ units →
  ((r, c) ∈ unit_cells u → valid (outcome (run_routine (unit_thread g' u))) = 0)
  ∧ ((r, c) ∉ unit_cells u → valid (outcome (run_routine (unit_thread g' u))) = 1).
Proof.
  intros Hu. split.
  - intros Hin. destruct (unit_valid_cases g' u) as [?|Hv]; [done|].
    apply unit_valid_iff in Hv as [_ Hnd].
    by destruct (touched_unit_duplicate u Hu Hin).
  - intros Hnot. apply unit_valid_iff.
    rewrite (untouched_unit_values u Hnot). apply distinct_digits.
    + rewrite values_length. by apply unit_cells_length.
    + by apply solved_unit.
Qed.

End Overwrite.

(** C4. Take a grid whose 27 units are all valid and overwrite one cell
    [(r, c)] with the value found at another column [c'] of row [r].  Then
    [validate] returns false; a unit gets [valid = 0] exactly when it holds
    a duplicate, which is exactly when it contains the cell [(r, c)] (its
    row, and also its column and its subgrid, where the value was already
    present); every other unit gets [valid = 1]. *)
Theorem row_duplicate_marks_its_units g sched r c c' :
  solved g → fair sched →
  (r < SIZE)%nat → (c < SIZE)%nat → (c' < SIZE)%nat → c' ≠ c →
  let g' := set_cell g r c (cell g r c') in
  (validate g' sched).1 = false
  ∧ valid (result_at (results (validate g' sched).2) r) = 0
  ∧ ∀ u, u ∈ units →
      let res := result_at (results (validate g' sched).2) (unit_slot u) in
      (valid res = 0 ↔ ¬ NoDup (values g' (unit_cells u)))
      ∧ (valid res = 0 ↔ (r, c) ∈ unit_cells u)
      ∧ (valid res = 1 ↔ (r, c) ∉ unit_cells u).
Proof.
  intros Hs Hf Hr Hc Hc' Hne g'.
  pose proof (overwritten_unit_verdict g r c c' Hs Hr Hc Hc' Hne) as Hverdict.
  fold g' in Hverdict.
  assert (Hrow : (r, c) ∈ unit_cells (Unit Row r)).
  { eapply list_elem_of_lookup_2, row_cells_lookup, Hc. }
  pose proof (row_unit_elem r Hr) as Hu.
  split_and!.
  - eapply validate_false; [done | exact Hu |]. by apply Hverdict.
  - change r with (unit_slot (Unit Row r)) at 1.
    rewrite validate_result_at by done. by apply Hverdict.
  - intros u Hu' res. subst res. rewrite validate_result_at by done.
    destruct (Hverdict u Hu') as [Hin Hout].
    destruct (decide ((r, c) ∈ unit_cells u)) as [Hmem|Hmem].
    + rewrite (Hin Hmem). split_and!; [|done|].
      * split; [|done]. intros _.
        by apply (touched_unit_duplicate g r c c' Hs Hr Hc Hc' Hne).
      * split; [done | by intros ?].
    + rewrite (Hout Hmem). split_and!; [|done|done].
      split; [done|]. intros Hdup. exfalso. apply Hdup.
      pose proof (Hout Hmem) as Hv. by apply unit_valid_iff in Hv as [_ ?].
Qed.

Lemma row_duplicate_marks_its_units_witness :
  let g' := set_cell canonical 0 1 (cell canonical 0 0) in
  let tbl := results (validate g' (rev (seq 0 NUM_THREADS))).2 in
  solved canonical
  ∧ (validate g' (rev (seq 0 NUM_THREADS))).1 = false
  ∧ (valid (result_at tbl (unit_slot (Unit Column 1))) = 0
     ↔ (0%nat, 1%nat) ∈ unit_cells (Unit Column 1))
  ∧ (valid (result_at tbl (unit_slot (Unit Column 0))) = 1
     ↔ (0%nat, 1%nat) ∉ unit_cells (Unit Column 0)).
Proof.
  intros g' tbl.
  assert (H9 : ∀ n, (n < 9)%nat → (n < SIZE)%nat) by (intros; exact H).
  assert (Hne : 0%nat ≠ 1%nat) by lia.
  pose proof (row_duplicate_marks_its_units canonical (rev (seq 0 NUM_THREADS))
    0 1 0 canonical_solved fair_reversed
    (H9 0%nat ltac:(lia)) (H9 1%nat ltac:(lia)) (H9 0%nat ltac:(lia)) Hne)
    as (Hall & _ & Hunits).
  assert (Hc1 : Unit Column 1 ∈ units).
  { refine (bool_decide_unpack _ _). by vm_compute. }
  assert (Hc0 : Unit Column 0 ∈ units).
  { refine (bool_decide_unpack _ _). by vm_compute. }
  split; [exact canonical_solved|]. split; [exact Hall|]. split.
  - exact (proj1 (proj2 (Hunits _ Hc1))).
  - exact (proj2 (proj2 (Hunits _ Hc0))).
Defined.

(** * Slots *)

Lemma unit_elem k i : (i < SIZE)%nat → Unit k i ∈ units.
Proof.
  intros Hi. unfold units. rewrite !elem_of_app, !list_elem_of_fmap.
  assert (i ∈ seq 0 SIZE) by (apply elem_of_seq; lia).
  destruct k; [left | right; left | right; right]; by exists i.
Qed.

Lemma unit_slots : unit_slot <$> units = seq 0 NUM_THREADS.
Proof. reflexivity. Qed.

Lemma thread_slots g :
  (λ ot : option thread, slot <$> (run_routine <$> ot)) <$> spawn_all g
  = Some <$> seq 0 NUM_THREADS.
Proof.
  rewrite spawn_all_units, <- unit_slots, <- !list_fmap_compose.
  apply list_fmap_ext. intros i u _. simpl. f_equal. apply unit_run.
Qed.

(** C5. The thread started at index [i] of the thread table is the checker
    of row [i] and writes slot [i]; the one at [9 + i] is the checker of
    column [i] and writes slot [9 + i]; the one started for the block at
    block-row [br], block-column [bc] has index [2*SIZE + (3*br + 3*bc/3)],
    which is [18 + 3*br + bc], and the index the subgrid checker computes
    for itself is the same.  Listed in table order the 27 threads write the
    slots 0, 1, ..., 26: no slot is shared and none is left out. *)
Theorem slot_assignment_bijective g :
  (∀ i, (i < SIZE)%nat →
     spawn_all g !! i = Some (Some (Thread CheckRow (Parameters i 0 g)))
     ∧ slot (checkRow (Parameters i 0 g)) = i)
  ∧ (∀ i, (i < SIZE)%nat →
     spawn_all g !! (9 + i)%nat
       = Some (Some (Thread CheckColumn (Parameters 0 i g)))
     ∧ slot (checkColumn (Parameters 0 i g)) = (9 + i)%nat)
  ∧ (∀ br bc, (br < 3)%nat → (bc < 3)%nat →
     spawn_all g !! (2 * SIZE + (3 * br + 3 * bc / 3))%nat
       = Some (Some (Thread CheckSubgrid (Parameters (3 * br) (3 * bc) g)))
     ∧ slot (checkSubgrid (Parameters (3 * br) (3 * bc) g))
       = (2 * SIZE + (3 * br + 3 * bc / 3))%nat
     ∧ (2 * SIZE + (3 * br + 3 * bc / 3) = 18 + 3 * br + bc)%nat)
  ∧ (λ ot : option thread, slot <$> (run_routine <$> ot)) <$> spawn_all g
    = Some <$> seq 0 NUM_THREADS
  ∧ NoDup (unit_slot <$> units)
  ∧ ∀ k, (k < NUM_THREADS)%nat → ∃ u, u ∈ units ∧ unit_slot u = k.
Proof.
  split_and!.
  - intros i Hi. split.
    + apply (spawn_all_lookup g (Unit Row i)), unit_elem, Hi.
    + apply (checkRow_scan g i 0).
  - intros i Hi. split.
    + apply (spawn_all_lookup g (Unit Column i)), unit_elem, Hi.
    + apply (checkColumn_scan g 0 i).
  - intros br bc Hbr Hbc.
    assert (br = 0 ∨ br = 1 ∨ br = 2)%nat as Hb by lia.
    assert (bc = 0 ∨ bc = 1 ∨ bc = 2)%nat as Hb' by lia.
    destruct Hb as [->|[->| ->]]; destruct Hb' as [->|[->| ->]];
      (split_and!; [reflexivity | apply checkSubgrid_scan | reflexivity]).
  - apply thread_slots.
  - rewrite unit_slots. apply NoDup_seq.
  - apply slot_unit.
Qed.

Lemma slot_assignment_bijective_witness :
  spawn_all canonical !! (2 * SIZE + (3 * 1 + 3 * 2 / 3))%nat
    = Some (Some (Thread CheckSubgrid (Parameters 3 6 canonical)))
  ∧ slot (checkSubgrid (Parameters 3 6 canonical)) = 23%nat
  ∧ slot (checkColumn (Parameters 0 8 canonical)) = 17%nat.
Proof.
  destruct (slot_assignment_bijective canonical) as (_ & Hcol & Hsub & _).
  destruct (Hsub 1%nat 2%nat ltac:(lia) ltac:(lia)) as (Hat & Hslot & _).
  destruct (Hcol 8%nat ltac:(unfold SIZE; lia)) as [_ Hc].
  split; [exact Hat|]. split; [exact Hslot | exact Hc].
Defined.

(** * Cells inspected *)

(** A scan of cells whose values are legal, distinct and not yet marked
    runs to the end and marks them. *)
Lemma scan_clean g cells check vs seen :
  marks check vs → fresh vs (values g cells) →
  ∃ check', scan_cells g cells (check, seen) = inl (check', seen ++ cells)
            ∧ marks check' (vs ++ values g cells).
Proof.
  intros Hm (Hall & Hnd & Hnot).
  pose proof (scan_cells_spec g cells check vs seen Hm) as Hspec.
  destruct (scan_cells g cells (check, seen)) as [[check' seen']|seen'].
  - destruct Hspec as (-> & Hm' & _). by exists check'.
  - exfalso. destruct Hspec as (pre & bad & post & -> & _ & _ & Hbad).
    unfold values in Hall, Hnd, Hnot.
    rewrite fmap_app, fmap_cons in Hall, Hnd, Hnot.
    apply Forall_app in Hall as [_ Hall]. apply Forall_cons in Hall as [Hr _].
    destruct Hbad as [Hbad|Hin]; [done|].
    apply elem_of_app in Hin as [Hin|Hin].
    + apply (Hnot (cell g bad.1 bad.2)); [|done].
      apply elem_of_app. right. by left.
    + apply NoDup_app in Hnd as (_ & Hdis & _).
      apply (Hdis _ Hin). by left.
Qed.

(** A scan stops at the first cell that is out of range or repeats a value
    seen before it, having read the cells up to that one and no other. *)
Lemma scan_first_bad g pre bad post :
  Forall in_range (values g pre) → NoDup (values g pre) →
  ¬ in_range (cell g bad.1 bad.2) ∨ cell g bad.1 bad.2 ∈ values g pre →
  scan_cells g (pre ++ bad :: post) (check0, []) = inr (pre ++ [bad]).
Proof.
  intros Hall Hnd Hbad.
  destruct (scan_clean g pre check0 [] [] marks_check0) as (check & Hscan & Hm).
  { split; [done|]. split; [done|]. intros v _. apply not_elem_of_nil. }
  rewrite scan_cells_app, Hscan. rewrite app_nil_l in *.
  destruct bad as [r c]. cbn [scan_cells fst snd] in *. unfold inspect.
  pose proof (rejects_bad check (values g pre) (cell g r c) Hm Hbad) as Hrej.
  destruct (rejects (cell g r c) check) as [b check'].
  cbn [fst] in Hrej. by subst b.
Qed.

(** C6. The thread of every unit runs to its exit on every grid (its loops
    run for at most 3 * 3 or 9 iterations and the routine is a total
    function), having read at most 9 cells.  When the nine cells of the
    unit are legal and pairwise distinct it reads all nine, in order, and
    reports valid.  Otherwise it stops at the first cell that is out of
    range or repeats the value of an earlier cell of the unit: it reads
    the cells up to and including that one, reads none of the cells after
    it, and reports INVALID.  Conversely a valid report means all nine
    cells were read, and an INVALID report means the cells read end with
    such a first bad cell. *)
Theorem unit_scan_stops_at_first_bad_cell g u :
  u ∈ units →
  let e := run_routine (unit_thread g u) in
  (length (inspected e) ≤ SIZE)%nat
  ∧ (valid (outcome e) = 0 ∨ valid (outcome e) = 1)
  ∧ (valid (outcome e) = 1 → inspected e = unit_cells u)
  ∧ (valid (outcome e) = 0 →
     ∃ pre bad post,
       unit_cells u = pre ++ bad :: post
       ∧ inspected e = pre ++ [bad]
       ∧ Forall in_range (values g pre) ∧ NoDup (values g pre)
       ∧ (¬ in_range (cell g bad.1 bad.2)
          ∨ cell g bad.1 bad.2 ∈ values g pre))
  ∧ (Forall in_range (values g (unit_cells u)) →
     NoDup (values g (unit_cells u)) →
     valid (outcome e) = 1 ∧ inspected e = unit_cells u)
  ∧ (∀ pre bad post,
       unit_cells u = pre ++ bad :: post →
       Forall in_range (values g pre) → NoDup (values g pre) →
       ¬ in_range (cell g bad.1 bad.2) ∨ cell g bad.1 bad.2 ∈ values g pre →
       valid (outcome e) = 0 ∧ inspected e = pre ++ [bad]).
Proof.
  intros Hu e. subst e.
  destruct (unit_run g u) as (_ & -> & ->).
  pose proof (unit_cells_length u Hu) as Hlen.
  pose proof (scan_cells_spec g (unit_cells u) check0 [] [] marks_check0) as Hspec.
  assert (Hclean :
    Forall in_range (values g (unit_cells u)) →
    NoDup (values g (unit_cells u)) →
    verdict_of (scan_cells g (unit_cells u) (check0, [])) = 1
    ∧ log_of (scan_cells g (unit_cells u) (check0, [])) = unit_cells u).
  { intros Hall Hnd.
    destruct (scan_clean g (unit_cells u) check0 [] [] marks_check0)
      as (check & -> & _); [|done].
    split; [done|]. split; [done|]. intros v _. apply not_elem_of_nil. }
  assert (Hfirst : ∀ pre bad post,
    unit_cells u = pre ++ bad :: post →
    Forall in_range (values g pre) → NoDup (values g pre) →
    ¬ in_range (cell g bad.1 bad.2) ∨ cell g bad.1 bad.2 ∈ values g pre →
    verdict_of (scan_cells g (unit_cells u) (check0, [])) = 0
    ∧ log_of (scan_cells g (unit_cells u) (check0, [])) = pre ++ [bad]).
  { intros pre bad post -> Hall Hnd Hbad.
    by rewrite (scan_first_bad g pre bad post Hall Hnd Hbad). }
  destruct (scan_cells g (unit_cells u) (check0, [])) as [[check seen]|seen];
    simpl in *.
  - destruct Hspec as (-> & _).
    split_and!; [lia | by right | done | done | done | done].
  - destruct Hspec as (pre & bad & post & Hcells & -> & (Hall & Hnd & _) & Hbad).
    split_and!; [ | by left | done | | done | done].
    + rewrite Hcells, length_app in Hlen. rewrite length_app. simpl in *. lia.
    + intros _. by exists pre, bad, post.
Qed.

Lemma unit_scan_stops_at_first_bad_cell_witness :
  let g := set_cell canonical 4 4 0 in
  let e := run_routine (unit_thread g (Unit Subgrid 4)) in
  Unit Subgrid 4 ∈ units
  ∧ unit_cells (Unit Subgrid 4)
    = [(3, 3); (3, 4); (3, 5); (4, 3)]%nat
      ++ (4, 4)%nat :: [(4, 5); (5, 3); (5, 4); (5, 5)]%nat
  ∧ ¬ in_range (cell g 4 4)
  ∧ valid (outcome e) = 0
  ∧ inspected e = [(3, 3); (3, 4); (3, 5); (4, 3)]%nat ++ [(4, 4)%nat]
  ∧ (length (inspected e) ≤ SIZE)%nat.
Proof.
  intros g e.
  assert (Hu : Unit Subgrid 4 ∈ units).
  { refine (bool_decide_unpack _ _). by vm_compute. }
  assert (Hcells : unit_cells (Unit Subgrid 4)
    = [(3, 3); (3, 4); (3, 5); (4, 3)]%nat
      ++ (4, 4)%nat :: [(4, 5); (5, 3); (5, 4); (5, 5)]%nat) by reflexivity.
  assert (Hcell : cell g 4 4 = 0) by reflexivity.
  assert (Hbad : ¬ in_range (cell g 4 4)) by (unfold in_range; rewrite Hcell; lia).
  assert (Hall : Forall in_range
    (values g [(3, 3); (3, 4); (3, 5); (4, 3)]%nat)).
  { refine (bool_decide_unpack _ _). by vm_compute. }
  assert (Hnd : NoDup (values g [(3, 3); (3, 4); (3, 5); (4, 3)]%nat)).
  { refine (bool_decide_unpack _ _). by vm_compute. }
  destruct (unit_scan_stops_at_first_bad_cell g (Unit Subgrid 4) Hu)
    as (Hlen & _ & _ & _ & _ & Hfirst).
  destruct (Hfirst _ (4, 4)%nat _ Hcells Hall Hnd (or_introl Hbad)) as [Hv Hi].
  split; [exact Hu|]. split; [exact Hcells|]. split; [exact Hbad|].
  split; [exact Hv|]. split; [exact Hi | exact Hlen].
Defined.

(** * Exit status *)

Lemma main_status argv fopen stack sched :
  status (main argv fopen stack sched)
  = if decide (length argv = 2%nat
               ∧ fopen (default EmptyString (argv !! 1%nat)) ≠ None)
    then EXIT_SUCCESS else EXIT_FAILURE.
Proof.
  destruct (decide (length argv = 2%nat)) as [Hargc|Hargc].
  - destruct (fopen (default EmptyString (argv !! 1%nat))) as [stream|] eqn:Hopen.
    + destruct (loadSudoku_opened stream stack) as [g Hload].
      rewrite <- Hopen in Hload.
      rewrite (main_loaded _ _ _ _ g Hargc Hload).
      by rewrite decide_True.
    + destruct (main_unopened argv fopen stack sched Hargc Hopen) as (-> & _).
      rewrite decide_False; [done | tauto].
  - destruct (main_usage argv fopen stack sched Hargc) as (-> & _).
    rewrite decide_False; [done | tauto].
Qed.

(** C8. The exit status is [EXIT_SUCCESS] (0) exactly when two arguments
    were given and the source could be opened, whatever the verdict on the
    puzzle; it is [EXIT_FAILURE] (non-zero) exactly when the argument count
    is wrong or the source cannot be opened. *)
Theorem exit_status_reflects_io_only argv fopen stack sched :
  let out := main argv fopen stack sched in
  let opened := fopen (default EmptyString (argv !! 1%nat)) in
  (status out = 0 ↔ length argv = 2%nat ∧ opened ≠ None)
  ∧ (status out ≠ 0 ↔ length argv ≠ 2%nat ∨ opened = None)
  ∧ (status out ≠ 0 ↔ status out = EXIT_FAILURE)
  ∧ ∀ g, length argv = 2%nat → loadSudoku opened stack = Some g →
      status out = 0
      ∧ ((validate g sched).1 = true ∨ (validate g sched).1 = false).
Proof.
  intros out opened. subst out opened. rewrite main_status.
  unfold EXIT_SUCCESS, EXIT_FAILURE.
  destruct (fopen (default EmptyString (argv !! 1%nat))) as [stream|] eqn:Hopen.
  - destruct (decide (length argv = 2%nat ∧ Some stream ≠ None)) as [Hok|Hko].
    + split_and!; [tauto | | done |].
      * split; [done|]. intros [?|?]; [tauto | done].
      * intros g _ _. split; [done|].
        destruct (validate g sched).1; [by left | by right].
    + assert (length argv ≠ 2%nat) as Hargc by (intros ?; by apply Hko).
      split_and!; [| | done | done].
      * split; [done | tauto].
      * split; [by left | done].
  - rewrite decide_False by tauto.
    split_and!; [| | done | done].
    + split; [done | tauto].
    + split; [by right | done].
Qed.

(** * Messages *)

Lemma report_shape u ok :
  u ∈ units →
  (String.length (report u ok) + 1 ≤ 36)%nat
  ∧ contains (kind_name (unit_kind u)) (report u ok) = true
  ∧ contains ("(" +:+ kind_name (unit_kind u) +:+ " "
                +:+ decimal (Z.of_nat (unit_index u) + 1) +:+ ")")
      (report u ok) = true
  ∧ contains (if ok then "is valid" else "is INVALID") (report u ok) = true
  ∧ contains (if ok then "is INVALID" else "is valid") (report u ok) = false.
Proof.
  intros Hu. destruct ok; each_unit Hu; vm_compute; (split; [lia | done]).
Qed.

(** C10. For every grid and every unit, the string [sprintf] produces for
    the unit's outcome is, with its terminating NUL, at most 36 bytes long:
    it fits the [MESSAGE_SIZE] = 100 bytes of [message] with room to spare.
    The string names the kind of the unit and its 1-based index, as
    "(row N)", "(column N)" or "(subgrid N)", and ends with the verdict
    that matches the [valid] field: "is valid" when [valid = 1] and
    "is INVALID" when [valid = 0], never the other one. *)
Theorem message_fits_and_identifies_unit g u :
  u ∈ units →
  let res := outcome (run_routine (unit_thread g u)) in
  let ok := bool_decide (valid res = 1) in
  (String.length (message res) < MESSAGE_SIZE)%nat
  ∧ (String.length (message res) + 1 ≤ MESSAGE_SIZE)%nat
  ∧ message res = report u ok
  ∧ contains (kind_name (unit_kind u)) (message res) = true
  ∧ contains ("(" +:+ kind_name (unit_kind u) +:+ " "
                +:+ decimal (Z.of_nat (unit_index u) + 1) +:+ ")")
      (message res) = true
  ∧ contains (if ok then "is valid" else "is INVALID") (message res) = true
  ∧ contains (if ok then "is INVALID" else "is valid") (message res) = false.
Proof.
  intros Hu res ok. subst res ok. rewrite unit_message by done.
  destruct (report_shape u
    (bool_decide (valid (outcome (run_routine (unit_thread g u))) = 1)) Hu)
    as (Hlen & Hkind & Hidx & Hv & Hnv).
  unfold MESSAGE_SIZE. split_and!; [lia | lia | done..].
Qed.

Lemma message_fits_and_identifies_unit_witness :
  let g := set_cell canonical 4 4 0 in
  let res := outcome (run_routine (unit_thread g (Unit Column 4))) in
  Unit Column 4 ∈ units
  ∧ (String.length (message res) < MESSAGE_SIZE)%nat
  ∧ message res = "Thread # 14 (column 5) is INVALID" +:+ newline.
Proof.
  intros g res.
  assert (Hu : Unit Column 4 ∈ units).
  { refine (bool_decide_unpack _ _). by vm_compute. }
  destruct (message_fits_and_identifies_unit g (Unit Column 4) Hu)
    as (Hlen & _ & Hmsg & _).
  split; [exact Hu|]. split; [exact Hlen|]. exact Hmsg.
Defined.

(** * Accesses to the result table *)

Lemma writers_app k tr1 tr2 : writers k (tr1 ++ tr2) = writers k tr1 ++ writers k tr2.
Proof.
  induction tr1 as [|[tid s|i] tr1 IH]; simpl; [done | | done].
  destruct (decide (s = k)); simpl; by rewrite IH.
Qed.

Lemma writers_reads k tr : Forall is_read tr → writers k tr = [].
Proof.
  induction 1 as [|[tid s|i] tr Hr _ IH]; simpl; [done | by destruct Hr | done].
Qed.

Lemma writers_absent k (l : list nat) :
  k ∉ l → writers k ((λ j, Write j j) <$> l) = [].
Proof.
  induction l as [|a l IH]; simpl; [done|]. intros Hnot.
  apply not_elem_of_cons in Hnot as [Hne Hnot].
  rewrite decide_False by done. by apply IH.
Qed.

Lemma writers_once k (l : list nat) :
  NoDup l → k ∈ l → writers k ((λ j, Write j j) <$> l) = [k].
Proof.
  induction 1 as [|a l Hnot Hnd IH]; intros Hin; simpl.
  - by apply elem_of_nil in Hin.
  - destruct (decide (a = k)) as [->|Hne].
    + by rewrite writers_absent.
    + apply IH. apply elem_of_cons in Hin as [?|?]; [congruence | done].
Qed.

Lemma reads_are_reads (l : list nat) : Forall is_read (Read <$> l).
Proof. apply Forall_fmap, Forall_forall. by intros. Qed.

Lemma aggregate_trace sh :
  ∃ m, (m ≤ NUM_THREADS)%nat
       ∧ trace (aggregate sh).2 = trace sh ++ (Read <$> seq 0 m).
Proof.
  rewrite aggregate_run.
  pose proof (reduction_spec (results sh) NUM_THREADS 0%nat (trace sh)) as Hspec.
  destruct (run_over _ _ _) as [tr|tr]; simpl.
  - destruct Hspec as [_ ->]. by exists NUM_THREADS.
  - destruct Hspec as (i & Hi & _ & ->). exists (S (i - 0)). split; [lia | done].
Qed.

Lemma fair_NoDup sched : fair sched → NoDup sched.
Proof. unfold fair. intros ->. apply NoDup_seq. Qed.

Lemma fair_threads g sched k :
  fair sched → k ∈ sched → ∃ t, spawn_all g !! k = Some (Some t).
Proof.
  intros Hf Hk. destruct (slot_unit k (fair_bound _ _ Hf Hk)) as (u & Hu & <-).
  exists (unit_thread g u). by apply spawn_all_lookup.
Qed.

(** The accesses of a whole run: the writes of the threads, then reads. *)
Lemma engine_run_trace path g sched :
  fair sched →
  ∃ reads,
    trace (memory (engine_run path g sched))
    = ((λ k, Write k k) <$> sched) ++ reads
    ∧ Forall is_read reads.
Proof.
  intros Hf. unfold engine_run. rewrite printResults_spec.
  cbn [memory trace fst snd]. unfold validate.
  destruct (aggregate_trace (join_all (spawn_all g) sched (Shared results0 [])))
    as (m & _ & ->).
  rewrite (join_all_trace _ (spawn_all_owns g)) by (intros; by eapply fair_threads).
  cbn [trace]. rewrite app_nil_l, <- app_assoc. eexists. split; [done|].
  apply Forall_app. split; apply reads_are_reads.
Qed.

(** The zeroed slot is not told apart from an INVALID verdict by its
    [valid] field: a unit of the all-zero grid reports the same 0. *)
Lemma unset_valid_is_invalid_verdict :
  valid (result_at results0 0) = 0
  ∧ valid (outcome (checkRow (Parameters 0 0 zeros))) = 0
  ∧ valid (result_at results0 0)
    = valid (result_at (results (validate zeros (seq 0 NUM_THREADS)).2) 0)
  ∧ (aggregate (Shared results0 [])).1 = false.
Proof. by vm_compute. Qed.

(** C9 as the code has it.  Before the threads run, each of the 27 slots is
    zeroed: [valid = 0], the same integer as an INVALID verdict, and an
    empty [message]; the empty message, which no thread ever writes, is
    what tells a slot that was never written from an outcome.  While the
    threads run, each slot is written exactly once, by the thread of the
    unit that owns it.  After the join the table is only read: in the trace
    of the run every write comes before every read, and the table that is
    reported is the one the threads left. *)
Theorem result_slots_written_once_then_read argv fopen stack sched g :
  length argv = 2%nat →
  loadSudoku (fopen (default EmptyString (argv !! 1%nat))) stack = Some g →
  fair sched →
  let out := main argv fopen stack sched in
  (length results0 = NUM_THREADS ∧ Forall (λ r, r = unset) results0
   ∧ valid unset = 0 ∧ message unset = EmptyString)
  ∧ (∀ u, u ∈ units →
       message (outcome (run_routine (unit_thread g u))) ≠ message unset
       ∧ outcome (run_routine (unit_thread g u)) ≠ unset)
  ∧ (∀ u, u ∈ units →
       spawn_all g !! unit_slot u = Some (Some (unit_thread g u))
       ∧ writers (unit_slot u) (trace (memory out)) = [unit_slot u])
  ∧ (∃ reads,
       trace (memory out) = ((λ k, Write k k) <$> sched) ++ reads
       ∧ Forall is_read reads)
  ∧ results (memory out)
    = results (join_all (spawn_all g) sched (Shared results0 [])).
Proof.
  intros Hargc Hload Hf out. subst out.
  rewrite (main_loaded _ _ _ _ g) by done.
  destruct (engine_run_trace (default EmptyString (argv !! 1%nat)) g sched Hf)
    as (reads & Htrace & Hreads).
  split_and!.
  - apply results0_length.
  - unfold results0. apply Forall_forall. intros r Hr.
    by apply elem_of_replicate in Hr as [-> _].
  - done.
  - done.
  - intros u Hu.
    assert (message (outcome (run_routine (unit_thread g u))) ≠ message unset)
      as Hmsg.
    { rewrite unit_message by done.
      destruct (bool_decide _); each_unit Hu; by vm_compute. }
    split; [exact Hmsg|]. intros Heq. apply Hmsg. exact (f_equal message Heq).
  - intros u Hu. split; [by apply spawn_all_lookup|].
    rewrite Htrace, writers_app, (writers_reads _ reads) by done.
    rewrite app_nil_r. apply writers_once; [by apply fair_NoDup|].
    apply fair_elem; [done|]. by apply unit_slot_bound.
  - exists reads. split; [exact Htrace | exact Hreads].
  - rewrite engine_run_results. unfold validate. apply aggregate_results.
Qed.

Lemma result_slots_written_once_then_read_witness :
  let argv := ["sudoku"; "puzzle.txt"] in
  let fopen := one_file "puzzle.txt" (integers (concat canonical)) in
  let out := main argv fopen zeros (rev (seq 0 NUM_THREADS)) in
  fair (rev (seq 0 NUM_THREADS))
  ∧ writers 26 (trace (memory out)) = [26%nat]
  ∧ results (memory out)
    = results (join_all (spawn_all canonical) (rev (seq 0 NUM_THREADS))
                (Shared results0 [])).
Proof.
  intros argv fopen out.
  assert (Hload :
    loadSudoku (fopen (default EmptyString (argv !! 1%nat))) zeros
    = Some canonical) by reflexivity.
  assert (Hu : Unit Subgrid 8 ∈ units).
  { refine (bool_decide_unpack _ _). by vm_compute. }
  destruct (result_slots_written_once_then_read argv fopen zeros
    (rev (seq 0 NUM_THREADS)) canonical eq_refl Hload fair_reversed)
    as (_ & _ & Hw & _ & Hres).
  split; [exact fair_reversed|]. split; [exact (proj2 (Hw _ Hu)) | exact Hres].
Defined.

(** * Loading *)

(** Both sides run the same 81 steps: the loops unroll to the fold. *)
Lemma loadSudoku_fold stream stack :
  loadSudoku (Some stream) stack
  = Some (foldl load_step (stream, stack) all_cells).2.
Proof. reflexivity. Qed.

Lemma load_step_eq stream g r c :
  load_step (stream, g) (r, c)
  = (tail stream, set_cell g r c (default (cell g r c) (mjoin (head stream)))).
Proof. by destruct stream as [|[n|] rest]. Qed.

Lemma wf_set_cell g r c v : wf_grid g → wf_grid (set_cell g r c v).
Proof.
  intros [Hlen Hrows]. unfold set_cell. split.
  - by rewrite length_alter.
  - apply Forall_alter; [done|]. intros line _ Hline. by rewrite length_insert.
Qed.

Lemma wf_cell_set_cell g r c v :
  wf_grid g → (r < SIZE)%nat → (c < SIZE)%nat → cell (set_cell g r c v) r c = v.
Proof.
  intros [Hlen Hrows] Hr Hc.
  destruct (lookup_lt_is_Some_2 g r) as [line Hline]; [by rewrite Hlen|].
  apply (cell_set_cell_same g r c v line Hline).
  rewrite Forall_forall in Hrows.
  rewrite (Hrows line); [done|]. by eapply list_elem_of_lookup_2.
Qed.

(** Cell number [i] of the list receives the integer of conversion number
    [i] when that conversion succeeds, and otherwise keeps what it held. *)
Lemma load_fold_spec cells :
  NoDup cells →
  (∀ rc, rc ∈ cells → (rc.1 < SIZE)%nat ∧ (rc.2 < SIZE)%nat) →
  ∀ stream g, wf_grid g →
    wf_grid (foldl load_step (stream, g) cells).2
    ∧ (∀ i rc, cells !! i = Some rc →
         cell (foldl load_step (stream, g) cells).2 rc.1 rc.2
         = default (cell g rc.1 rc.2) (mjoin (stream !! i)))
    ∧ (∀ r c, (r, c) ∉ cells →
         cell (foldl load_step (stream, g) cells).2 r c = cell g r c).
Proof.
  induction 1 as [|[r c] cells Hnot Hnd IH]; intros Hin stream g Hwf;
    cbn [foldl].
  - split_and!; [done | by intros | done].
  - rewrite load_step_eq.
    destruct (Hin (r, c)) as [Hr Hc]; [by left|]. simpl in Hr, Hc.
    set (x := default (cell g r c) (mjoin (head stream))).
    destruct (IH (λ rc Hrc, Hin rc (list_elem_of_further _ _ _ Hrc))
                 (tail stream) (set_cell g r c x) (wf_set_cell g r c x Hwf))
      as (Hwf' & Hread & Hkeep).
    split_and!; [done | |].
    + intros [|i] [r1 c1] Hi; cbn [fst snd]; cbn in Hi.
      * injection Hi as <- <-. rewrite (Hkeep r c Hnot).
        rewrite wf_cell_set_cell by done. subst x. by destruct stream.
      * pose proof (Hread i (r1, c1) Hi) as Hrd. cbn [fst snd] in Hrd.
        rewrite Hrd, cell_set_cell_other.
        -- by destruct stream.
        -- intros Heq. apply Hnot. rewrite <- Heq. by eapply list_elem_of_lookup_2.
    + intros r1 c1 Hout. apply not_elem_of_cons in Hout as [Hne Hout].
      rewrite (Hkeep r1 c1 Hout). by apply cell_set_cell_other.
Qed.

Lemma all_cells_NoDup : NoDup all_cells.
Proof. refine (bool_decide_unpack _ _). by vm_compute. Qed.

Lemma all_cells_bounds rc :
  rc ∈ all_cells → (rc.1 < SIZE)%nat ∧ (rc.2 < SIZE)%nat.
Proof.
  revert rc. apply Forall_forall.
  refine (bool_decide_unpack _ _). by vm_compute.
Qed.

Lemma all_cells_lookup r c :
  (r < SIZE)%nat → (c < SIZE)%nat → all_cells !! (9 * r + c)%nat = Some (r, c).
Proof.
  intros Hr Hc.
  assert (Forall (λ r, Forall (λ c, all_cells !! (9 * r + c)%nat = Some (r, c))
                          (seq 0 SIZE)) (seq 0 SIZE)) as Hall.
  { refine (bool_decide_unpack _ _). by vm_compute. }
  rewrite Forall_forall in Hall.
  specialize (Hall r). rewrite Forall_forall in Hall.
  apply Hall; apply elem_of_seq; lia.
Qed.

(** What [loadSudoku] leaves in the array once the source has opened. *)
Lemma loadSudoku_cells stream stack :
  wf_grid stack →
  ∃ g, loadSudoku (Some stream) stack = Some g
       ∧ wf_grid g
       ∧ ∀ r c, (r < SIZE)%nat → (c < SIZE)%nat →
           cell g r c
           = default (cell stack r c) (mjoin (stream !! (9 * r + c)%nat)).
Proof.
  intros Hwf. rewrite loadSudoku_fold. eexists. split; [done|].
  destruct (load_fold_spec all_cells all_cells_NoDup all_cells_bounds
              stream stack Hwf) as (Hwf' & Hread & _).
  split; [done|]. intros r c Hr Hc.
  apply (Hread _ (r, c)). by apply all_cells_lookup.
Qed.

Lemma zeros_wf : wf_grid zeros.
Proof. split; [done|]. unfold zeros. apply Forall_replicate. apply length_replicate. Qed.

Lemma spawn_all_created g :
  Forall is_Some (spawn_all g) ∧ length (spawn_all g) = NUM_THREADS
  ∧ spawn_all g ≠ no_threads.
Proof.
  rewrite spawn_all_units. split_and!.
  - apply Forall_fmap, Forall_forall. intros u _. by exists (unit_thread g u).
  - by rewrite length_fmap, units_length.
  - intros Heq. by apply (f_equal (λ l, l !! 0%nat)) in Heq.
Qed.

(** C7.  The header of [loadSudoku] says "Exits the program on file read
    error", and a source that provides fewer than 81 integers is to be
    rejected before any check is started.  The code does not do so: the
    value [fscanf] returns is dropped and [main] tests only [argc] and
    [fopen].  On a source that holds the three integers 5 3 4 and then
    ends, the run is not stopped: it starts all 27 threads on an array 78
    cells of which were never assigned, fills every one of the 27 slots,
    prints 28 lines and exits with [EXIT_SUCCESS]. *)
Lemma short_source_is_not_rejected :
  let stream := integers [5; 3; 4] in
  let out := main ["sudoku"; "puzzle.txt"] (one_file "puzzle.txt" stream)
               zeros (seq 0 NUM_THREADS) in
  (length stream < SIZE * SIZE)%nat
  ∧ status out = EXIT_SUCCESS
  ∧ tids out = spawn_all ([5; 3; 4; 0; 0; 0; 0; 0; 0] :: replicate 8 (replicate 9 0))
  ∧ tids out ≠ no_threads
  ∧ length (stdout out) = 28%nat
  ∧ Forall (λ r, message r ≠ message unset) (results (memory out)).
Proof.
  intros stream out.
  assert (Htids : tids out
    = spawn_all ([5; 3; 4; 0; 0; 0; 0; 0; 0] :: replicate 8 (replicate 9 0)))
    by (vm_compute; reflexivity).
  split; [vm_compute; lia|]. split; [vm_compute; reflexivity|].
  split; [exact Htids|]. split.
  - rewrite Htids. apply spawn_all_created.
  - split; [vm_compute; reflexivity|].
    refine (bool_decide_unpack _ _). vm_compute. exact I.
Qed.

(** A sign that no digit follows is consumed by the call that fails on it:
    the cell of that call keeps its value and the following calls convert
    again. *)
Lemma lone_sign_skips_one_cell :
  ∃ g, loadSudoku (Some [Some 1; None; Some 5; Some 6]) zeros = Some g
       ∧ g !! 0%nat = Some [1; 0; 5; 6; 0; 0; 0; 0; 0].
Proof. eexists. split; reflexivity. Qed.

(** * Further properties of the program *)

(** ** The verdict of the engine *)

Lemma solved_iff_units_valid g :
  solved g
  ↔ ∀ u, u ∈ units → valid (outcome (run_routine (unit_thread g u))) = 1.
Proof.
  unfold solved. rewrite Forall_forall. split; intros Hall u Hu.
  - apply unit_valid_iff, distinct_digits; [|by apply Hall].
    rewrite values_length. by apply unit_cells_length.
  - apply distinct_digits.
    + rewrite values_length. by apply unit_cells_length.
    + apply unit_valid_iff. by apply Hall.
Qed.

Lemma validate_decides_solved g sched :
  fair sched → (validate g sched).1 = bool_decide (solved g).
Proof.
  intros Hf. destruct (validate g sched).1 eqn:Hv; symmetry.
  - apply bool_decide_eq_true_2, (proj2 (solved_iff_units_valid g)).
    exact (proj1 (validate_true g sched Hf) Hv).
  - apply bool_decide_eq_false_2. intros Hs.
    pose proof (proj1 (solved_iff_units_valid g) Hs) as Hall.
    pose proof (proj2 (validate_true g sched Hf) Hall). congruence.
Qed.

(** X1. For every grid, [isValid] is true exactly when every row, every
    column and every 3x3 subgrid of the grid is a permutation of 1-9. *)
Theorem validate_true_iff_solved g sched :
  fair sched → ((validate g sched).1 = true ↔ solved g).
Proof.
  intros Hf. rewrite solved_iff_units_valid. by apply validate_true.
Qed.

Lemma validate_true_iff_solved_witness :
  fair (rev (seq 0 NUM_THREADS))
  ∧ ((validate (set_cell canonical 8 8 1) (rev (seq 0 NUM_THREADS))).1 = true
     ↔ solved (set_cell canonical 8 8 1)).
Proof.
  split; [exact fair_reversed|].
  exact (validate_true_iff_solved (set_cell canonical 8 8 1) _ fair_reversed).
Defined.

Lemma main_usage_eq argv fopen stack sched :
  length argv ≠ 2%nat →
  main argv fopen stack sched
  = Run EXIT_FAILURE
      ["Usage: " +:+ default EmptyString (argv !! 0%nat)
         +:+ " <sudoku_puzzle_file>" +:+ newline]
      no_threads (Shared results0 []).
Proof.
  intros Hargc. unfold main. by destruct (Nat.eqb_spec (length argv) 2).
Qed.

Lemma main_unopened_eq argv fopen stack sched :
  length argv = 2%nat →
  fopen (default EmptyString (argv !! 1%nat)) = None →
  main argv fopen stack sched
  = Run EXIT_FAILURE [] no_threads (Shared results0 []).
Proof.
  intros Hargc Hopen. unfold main. by rewrite Hargc, Hopen.
Qed.

Lemma validate_verdict_eq g s1 s2 :
  fair s1 → fair s2 → (validate g s1).1 = (validate g s2).1.
Proof.
  intros H1 H2. apply eq_true_iff_eq.
  by rewrite !validate_true.
Qed.

Lemma engine_run_stdout_eq path g sched :
  stdout (engine_run path g sched)
  = ((λ i, message (result_at (results (validate g sched).2) i))
       <$> seq 0 NUM_THREADS)
    ++ [if (validate g sched).1
        then path +:+ " contains a valid solution" +:+ newline
        else path +:+ " contains an INVALID solution" +:+ newline].
Proof.
  unfold engine_run. rewrite printResults_spec. reflexivity.
Qed.

(** X2. The order in which the threads get the mutex does not show in the
    result: for any two schedules that run each thread once, the final
    table, [isValid], and the exit status, the printed lines and the table
    of the whole program are the same. *)
Theorem result_independent_of_schedule argv fopen stack g s1 s2 :
  fair s1 → fair s2 →
  results (validate g s1).2 = results (validate g s2).2
  ∧ (validate g s1).1 = (validate g s2).1
  ∧ status (main argv fopen stack s1) = status (main argv fopen stack s2)
  ∧ stdout (main argv fopen stack s1) = stdout (main argv fopen stack s2)
  ∧ results (memory (main argv fopen stack s1))
    = results (memory (main argv fopen stack s2)).
Proof.
  intros H1 H2.
  assert (Hres : ∀ g', results (validate g' s1).2 = results (validate g' s2).2).
  { intros g'. by rewrite !validate_results. }
  split; [apply Hres|]. split; [by apply validate_verdict_eq|].
  destruct (decide (length argv = 2%nat)) as [Hargc|Hargc].
  - destruct (fopen (default EmptyString (argv !! 1%nat))) as [stream|] eqn:Hopen.
    + destruct (loadSudoku_opened stream stack) as [g' Hload].
      rewrite <- Hopen in Hload.
      rewrite !(main_loaded _ _ _ _ g' Hargc Hload).
      split; [done|]. split.
      * rewrite !engine_run_stdout_eq, (Hres g').
        by rewrite (validate_verdict_eq g' s1 s2).
      * rewrite !engine_run_results. apply Hres.
    + by rewrite !(main_unopened_eq _ _ _ _ Hargc Hopen).
  - by rewrite !(main_usage_eq _ _ _ _ Hargc).
Qed.

Lemma result_independent_of_schedule_witness :
  let argv := ["sudoku"; "puzzle.txt"] in
  let fopen := one_file "puzzle.txt" (integers (concat (set_cell canonical 0 0 9))) in
  fair (seq 0 NUM_THREADS) ∧ fair (rev (seq 0 NUM_THREADS))
  ∧ stdout (main argv fopen zeros (seq 0 NUM_THREADS))
    = stdout (main argv fopen zeros (rev (seq 0 NUM_THREADS))).
Proof.
  intros argv fopen.
  assert (Hid : fair (seq 0 NUM_THREADS)) by (unfold fair; reflexivity).
  split; [exact Hid|]. split; [exact fair_reversed|].
  exact (proj1 (proj2 (proj2 (proj2
    (result_independent_of_schedule argv fopen zeros
       (set_cell canonical 0 0 9) _ _ Hid fair_reversed))))).
Defined.

(** X3. What a run that opens its source prints, as a function of the
    loaded grid alone: 27 lines in slot order (rows 1-9, columns 1-9,
    subgrids 1-9), each saying "is valid" exactly when the cells of its
    unit are a permutation of 1-9, then one summary line that says "a valid
    solution" exactly when all 27 units are. *)
Theorem report_of_a_run argv fopen stack sched g :
  length argv = 2%nat →
  loadSudoku (fopen (default EmptyString (argv !! 1%nat))) stack = Some g →
  fair sched →
  stdout (main argv fopen stack sched)
  = ((λ u, report u (bool_decide (values g (unit_cells u) ≡ₚ digits))) <$> units)
    ++ [default EmptyString (argv !! 1%nat)
          +:+ (if bool_decide (solved g) then " contains a valid solution"
               else " contains an INVALID solution") +:+ newline].
Proof.
  intros Hargc Hload Hf.
  rewrite (main_loaded _ _ _ _ g Hargc Hload), engine_run_stdout_eq.
  f_equal.
  - rewrite <- unit_slots, <- list_fmap_compose.
    apply list_fmap_ext. intros i u Hi. cbn [compose].
    assert (u ∈ units) as Hu by (by eapply list_elem_of_lookup_2).
    rewrite validate_result_at, unit_message by done.
    f_equal. apply bool_decide_ext.
    rewrite unit_valid_iff. apply distinct_digits.
    rewrite values_length. by apply unit_cells_length.
  - f_equal. rewrite (validate_decides_solved g sched Hf).
    by destruct (bool_decide (solved g)).
Qed.

Lemma report_of_a_run_witness :
  let argv := ["sudoku"; "puzzle.txt"] in
  let g := set_cell canonical 4 4 0 in
  let fopen := one_file "puzzle.txt" (integers (concat g)) in
  fair (rev (seq 0 NUM_THREADS))
  ∧ stdout (main argv fopen zeros (rev (seq 0 NUM_THREADS))) !! 27%nat
    = Some ("puzzle.txt contains an INVALID solution" +:+ newline)
  ∧ stdout (main argv fopen zeros (rev (seq 0 NUM_THREADS))) !! 4%nat
    = Some ("Thread #  5 (row 5) is INVALID" +:+ newline).
Proof.
  intros argv g fopen.
  assert (Hload :
    loadSudoku (fopen (default EmptyString (argv !! 1%nat))) zeros = Some g)
    by reflexivity.
  pose proof (report_of_a_run argv fopen zeros (rev (seq 0 NUM_THREADS)) g
                eq_refl Hload fair_reversed) as Hout.
  split; [exact fair_reversed|].
  split; rewrite Hout; vm_compute; reflexivity.
Defined.

(** ** Loading a well-formed source *)

Lemma wf_row g r :
  wf_grid g → (r < SIZE)%nat → ∃ line, g !! r = Some line ∧ length line = SIZE.
Proof.
  intros [Hlen Hrows] Hr.
  destruct (lookup_lt_is_Some_2 g r) as [line Hline]; [by rewrite Hlen|].
  exists line. split; [done|]. rewrite Forall_forall in Hrows.
  apply Hrows. by eapply list_elem_of_lookup_2.
Qed.

Lemma wf_cell g r c line :
  g !! r = Some line → cell g r c = default 0 (line !! c).
Proof. intros Hline. unfold cell. by rewrite Hline. Qed.

(** Two 9x9 grids with the same 81 cells are the same grid. *)
Lemma grid_ext g1 g2 :
  wf_grid g1 → wf_grid g2 →
  (∀ r c, (r < SIZE)%nat → (c < SIZE)%nat → cell g1 r c = cell g2 r c) →
  g1 = g2.
Proof.
  intros Hwf1 Hwf2 Hcells. apply list_eq. intros r.
  destruct (decide (r < SIZE)%nat) as [Hr|Hr].
  - destruct (wf_row g1 r Hwf1 Hr) as (l1 & Hl1 & Hn1).
    destruct (wf_row g2 r Hwf2 Hr) as (l2 & Hl2 & Hn2).
    rewrite Hl1, Hl2. f_equal. apply list_eq. intros c.
    destruct (decide (c < SIZE)%nat) as [Hc|Hc].
    + specialize (Hcells r c Hr Hc).
      rewrite (wf_cell g1 r c l1 Hl1), (wf_cell g2 r c l2 Hl2) in Hcells.
      destruct (lookup_lt_is_Some_2 l1 c) as [x1 Hx1]; [by rewrite Hn1|].
      destruct (lookup_lt_is_Some_2 l2 c) as [x2 Hx2]; [by rewrite Hn2|].
      rewrite Hx1, Hx2 in *. simpl in Hcells. by subst.
    + rewrite !lookup_ge_None_2; [done | rewrite Hn2; lia | rewrite Hn1; lia].
  - destruct Hwf1 as [Hn1 _], Hwf2 as [Hn2 _].
    rewrite !lookup_ge_None_2; [done | rewrite Hn2; lia | rewrite Hn1; lia].
Qed.

(** Row-major position of a cell in the flattened grid. *)
Lemma concat_lookup (g : Grid) : ∀ r c line,
  Forall (λ l : list Z, length l = SIZE) g →
  g !! r = Some line → (c < SIZE)%nat →
  concat g !! (9 * r + c)%nat = line !! c.
Proof.
  induction g as [|l g IH]; intros r c line Hrows Hline Hc; [done|].
  apply Forall_cons in Hrows as [Hl Hrows]. simpl.
  destruct r as [|r]; simpl in Hline.
  - injection Hline as ->. rewrite lookup_app_l; [done|]. rewrite Hl. lia.
  - rewrite lookup_app_r by (rewrite Hl; unfold SIZE; lia).
    rewrite <- (IH r c line Hrows Hline Hc). f_equal.
    rewrite Hl. unfold SIZE. lia.
Qed.

Lemma concat_length (g : Grid) : wf_grid g → length (concat g) = (SIZE * SIZE)%nat.
Proof.
  intros [Hlen Hrows]. rewrite <- Hlen at 1. clear Hlen.
  induction Hrows as [|l g Hl _ IH]; [done|].
  cbn [concat length]. rewrite length_app, Hl, IH. unfold SIZE. lia.
Qed.

Lemma loadSudoku_concat g extra stack :
  wf_grid g → wf_grid stack →
  ∃ g', loadSudoku (Some (integers (concat g) ++ extra)) stack = Some g'
        ∧ wf_grid g'
        ∧ ∀ r c, (r < SIZE)%nat → (c < SIZE)%nat → cell g' r c = cell g r c.
Proof.
  intros Hwf Hstack.
  destruct (loadSudoku_cells (integers (concat g) ++ extra) stack Hstack)
    as (g' & Hload & Hwf' & Hcells).
  exists g'. split; [done|]. split; [done|]. intros r c Hr Hc.
  rewrite (Hcells r c Hr Hc).
  destruct (wf_row g r Hwf Hr) as (line & Hline & Hn).
  unfold integers. rewrite lookup_app_l.
  - rewrite list_lookup_fmap.
    rewrite (concat_lookup g r c line (proj2 Hwf) Hline Hc).
    rewrite (wf_cell g r c line Hline).
    destruct (lookup_lt_is_Some_2 line c) as [x Hx]; [by rewrite Hn|].
    by rewrite Hx.
  - rewrite length_fmap, concat_length by done. unfold SIZE in *. lia.
Qed.

(** X4. Loading is the inverse of writing a grid out row by row: from a
    source that holds the 81 cells of a 9x9 grid in row-major order,
    followed by anything, [loadSudoku] produces that grid, whatever the
    array held before; integers after the 81st are never read. *)
Theorem load_row_major_round_trip g extra stack :
  wf_grid g → wf_grid stack →
  loadSudoku (Some (integers (concat g) ++ extra)) stack = Some g.
Proof.
  intros Hwf Hstack.
  destruct (loadSudoku_concat g extra stack Hwf Hstack)
    as (g' & -> & Hwf' & Hcells).
  f_equal. by apply grid_ext.
Qed.

Lemma load_row_major_round_trip_witness :
  wf_grid canonical ∧ wf_grid zeros
  ∧ loadSudoku (Some (integers (concat canonical) ++ [Some 7; None; Some 7]))
      zeros = Some canonical.
Proof.
  assert (Hwf : wf_grid canonical).
  { split; [reflexivity|]. repeat constructor. }
  split; [exact Hwf|]. split; [exact zeros_wf|].
  exact (load_row_major_round_trip canonical [Some 7; None; Some 7] zeros
           Hwf zeros_wf).
Defined.

(** X5. A source that opens but holds no integer at all (an empty file, or
    one that starts with a character no integer starts with) changes
    nothing: the grid that is validated is the array as it was, and the
    run goes on to validate that. *)
Theorem load_empty_source_keeps_array argv fopen stack sched :
  wf_grid stack → length argv = 2%nat →
  fopen (default EmptyString (argv !! 1%nat)) = Some [] →
  loadSudoku (Some []) stack = Some stack
  ∧ main argv fopen stack sched
    = engine_run (default EmptyString (argv !! 1%nat)) stack sched.
Proof.
  intros Hstack Hargc Hopen.
  assert (Hload : loadSudoku (Some []) stack = Some stack).
  { destruct (loadSudoku_cells [] stack Hstack) as (g' & -> & Hwf' & Hcells).
    f_equal. apply grid_ext; [done | done |]. intros r c Hr Hc.
    by rewrite (Hcells r c Hr Hc). }
  split; [exact Hload|]. apply main_loaded; [done|]. by rewrite Hopen.
Qed.

Lemma load_empty_source_keeps_array_witness :
  wf_grid zeros
  ∧ loadSudoku (Some []) zeros = Some zeros
  ∧ status (main ["sudoku"; "empty.txt"] (one_file "empty.txt" []) zeros
              (seq 0 NUM_THREADS)) = EXIT_SUCCESS.
Proof.
  destruct (load_empty_source_keeps_array ["sudoku"; "empty.txt"]
    (one_file "empty.txt" []) zeros (seq 0 NUM_THREADS)
    zeros_wf eq_refl eq_refl) as [Hload Hmain].
  split; [exact zeros_wf|]. split; [exact Hload|].
  exact (f_equal status Hmain).
Defined.

(** ** The table while the threads run *)

Lemma join_all_not_run tids' sched : ∀ sh k,
  owns tids' → k ∉ sched →
  results (join_all tids' sched sh) !! k = results sh !! k.
Proof.
  induction sched as [|tid sched IH] using rev_ind; intros sh k Hown Hnot; [done|].
  rewrite join_all_snoc. rewrite not_elem_of_app in Hnot.
  destruct Hnot as [Hnot Hne]. rewrite run_thread_other; [by apply IH | done |].
  intros ->. apply Hne. by left.
Qed.

(** X6. At any moment of the run, whichever threads have finished so far
    and in whatever order, the slot of a unit holds either the zeroed
    initial value (its thread has not run) or the complete outcome of that
    unit (it has): never a value written by another unit's thread. *)
Theorem slot_is_unset_or_final g ran u :
  u ∈ units →
  result_at (results (join_all (spawn_all g) ran (Shared results0 [])))
    (unit_slot u)
  = if decide (unit_slot u ∈ ran)
    then outcome (run_routine (unit_thread g u))
    else unset.
Proof.
  intros Hu. unfold result_at.
  pose proof (unit_slot_bound u Hu) as Hlt.
  destruct (decide (unit_slot u ∈ ran)) as [Hin|Hnot].
  - rewrite (join_all_written _ (spawn_all_owns g) ran _ _ (unit_thread g u));
      [done | by apply spawn_all_lookup | done | exact Hlt].
  - rewrite (join_all_not_run _ ran _ _ (spawn_all_owns g) Hnot).
    cbn [results]. unfold results0. by rewrite lookup_replicate_2.
Qed.

Lemma slot_is_unset_or_final_witness :
  Unit Column 2 ∈ units
  ∧ result_at (results (join_all (spawn_all canonical) [26; 3; 11]%nat
                          (Shared results0 []))) 11
    = outcome (checkColumn (Parameters 0 2 canonical))
  ∧ result_at (results (join_all (spawn_all canonical) [26; 3]%nat
                          (Shared results0 []))) 11
    = unset.
Proof.
  assert (Hu : Unit Column 2 ∈ units).
  { refine (bool_decide_unpack _ _). by vm_compute. }
  split; [exact Hu|]. split.
  - exact (slot_is_unset_or_final canonical [26; 3; 11]%nat (Unit Column 2) Hu).
  - exact (slot_is_unset_or_final canonical [26; 3]%nat (Unit Column 2) Hu).
Defined.

(** ** The reduction loop *)

Lemma reduction_first tbl n : ∀ lo tr,
  match run_over (reduction_body tbl) (seq lo n) tr with
  | inl tr' =>
      (∀ i, (lo ≤ i < lo + n)%nat → valid (result_at tbl i) ≠ 0)
      ∧ tr' = tr ++ (Read <$> seq lo n)
  | inr tr' =>
      ∃ i, (lo ≤ i < lo + n)%nat ∧ valid (result_at tbl i) = 0
           ∧ (∀ j, (lo ≤ j < i)%nat → valid (result_at tbl j) ≠ 0)
           ∧ tr' = tr ++ (Read <$> seq lo (S (i - lo)))
  end.
Proof.
  induction n as [|n IH]; intros lo tr; simpl.
  - split; [lia | by rewrite app_nil_r].
  - unfold reduction_body at 1.
    destruct (Z.eqb_spec (valid (result_at tbl lo)) 0) as [Hz|Hnz].
    + exists lo. split; [lia|]. split; [done|]. split; [lia|].
      by rewrite Nat.sub_diag.
    + specialize (IH (S lo) (tr ++ [Read lo])).
      destruct (run_over _ (seq (S lo) n) _) as [tr'|tr'].
      * destruct IH as [Hall ->]. split.
        -- intros i Hi. destruct (decide (i = lo)) as [->|]; [done|].
           apply Hall. lia.
        -- by rewrite <- app_assoc.
      * destruct IH as (i & Hi & Hz & Hmin & ->). exists i.
        split; [lia|]. split; [done|]. split.
        -- intros j Hj. destruct (decide (j = lo)) as [->|]; [done|].
           apply Hmin. lia.
        -- replace (i - lo)%nat with (S (i - S lo)) by lia.
           by rewrite <- app_assoc.
Qed.

(** X7. The loop of [main] that computes [isValid] reads the slots in
    order and stops at the first one whose [valid] is 0: it answers false
    after reading slots 0..k, where k is the least slot holding 0, and it
    answers true only after reading all 27 slots and finding no 0.  It
    never changes the table. *)
Theorem reduction_stops_at_first_invalid sh :
  results (aggregate sh).2 = results sh
  ∧ ∃ n, trace (aggregate sh).2 = trace sh ++ (Read <$> seq 0 n)
      ∧ if (aggregate sh).1
        then n = NUM_THREADS
             ∧ ∀ i, (i < NUM_THREADS)%nat → valid (result_at (results sh) i) ≠ 0
        else ∃ k, n = S k ∧ (k < NUM_THREADS)%nat
             ∧ valid (result_at (results sh) k) = 0
             ∧ ∀ j, (j < k)%nat → valid (result_at (results sh) j) ≠ 0.
Proof.
  split; [apply aggregate_results|]. rewrite aggregate_run.
  pose proof (reduction_first (results sh) NUM_THREADS 0%nat (trace sh)) as Hspec.
  destruct (run_over _ _ _) as [tr|tr]; cbn [fst snd trace].
  - destruct Hspec as [Hall ->]. exists NUM_THREADS.
    split; [done|]. split; [done|]. intros i Hi. apply Hall. lia.
  - destruct Hspec as (i & Hi & Hz & Hmin & ->). exists (S i).
    rewrite Nat.sub_0_r. split; [done|]. exists i.
    split; [done|]. split; [lia|]. split; [done|].
    intros j Hj. apply Hmin. lia.
Qed.

(** ** What a check depends on *)

Lemma scan_cells_ext g1 g2 cells :
  values g1 cells = values g2 cells →
  ∀ st, scan_cells g1 cells st = scan_cells g2 cells st.
Proof.
  induction cells as [|[r c] cells IH]; intros Hvals st; [done|].
  injection Hvals as Hcell Hrest. cbn [fst snd] in Hcell.
  cbn [scan_cells fst snd]. unfold inspect. rewrite Hcell.
  destruct st as [check seen].
  destruct (rejects (cell g2 r c) check) as [[] check']; [done|].
  by apply IH.
Qed.

Lemma outcome_eq (r1 r2 : validationResult) :
  valid r1 = valid r2 → message r1 = message r2 → r1 = r2.
Proof. destruct r1, r2. simpl. by intros -> ->. Qed.

Lemma unit_outcome_eq g1 g2 u :
  u ∈ units →
  valid (outcome (run_routine (unit_thread g1 u)))
  = valid (outcome (run_routine (unit_thread g2 u))) →
  outcome (run_routine (unit_thread g1 u))
  = outcome (run_routine (unit_thread g2 u)).
Proof.
  intros Hu Hv. apply outcome_eq; [done|].
  by rewrite !unit_message, Hv.
Qed.

(** X8. A check looks at nothing but the nine cells of its unit: on two
    grids that agree on those cells, whatever the other 72 cells hold, the
    thread of the unit reads the same cells, stops at the same place and
    writes the same verdict and message into the same slot. *)
Theorem check_depends_on_own_cells_only g1 g2 u :
  u ∈ units →
  (∀ r c, (r, c) ∈ unit_cells u → cell g1 r c = cell g2 r c) →
  run_routine (unit_thread g1 u) = run_routine (unit_thread g2 u).
Proof.
  intros Hu Hagree.
  assert (Hvals : values g1 (unit_cells u) = values g2 (unit_cells u)).
  { unfold values. apply list_fmap_ext. intros i [r c] Hi.
    apply Hagree. by eapply list_elem_of_lookup_2. }
  destruct (unit_run g1 u) as (Hs1 & Hv1 & Hi1).
  destruct (unit_run g2 u) as (Hs2 & Hv2 & Hi2).
  rewrite (scan_cells_ext g1 g2 _ Hvals) in Hv1, Hi1.
  assert (Hout : outcome (run_routine (unit_thread g1 u))
                 = outcome (run_routine (unit_thread g2 u))).
  { apply unit_outcome_eq; [done|]. by rewrite Hv1, Hv2. }
  destruct (run_routine (unit_thread g1 u)) as [s1 o1 i1].
  destruct (run_routine (unit_thread g2 u)) as [s2 o2 i2].
  cbn [slot outcome inspected] in *. congruence.
Qed.

Lemma check_depends_on_own_cells_only_witness :
  Unit Row 0 ∈ units
  ∧ run_routine (unit_thread canonical (Unit Row 0))
    = run_routine (unit_thread (set_cell canonical 5 5 0) (Unit Row 0)).
Proof.
  assert (Hu : Unit Row 0 ∈ units).
  { refine (bool_decide_unpack _ _). by vm_compute. }
  split; [exact Hu|].
  apply (check_depends_on_own_cells_only canonical _ (Unit Row 0) Hu).
  intros r c Hin. symmetry. apply cell_set_cell_other.
  intros [= -> ->]. revert Hin. refine (bool_decide_unpack _ _). by vm_compute.
Defined.

(** X9. The verdict of a unit does not depend on where in the unit the
    values sit: if the nine values of the unit in one grid are a
    rearrangement of its nine values in another, the unit gets the same
    [valid] and the same message in both. *)
Theorem verdict_invariant_under_rearrangement g1 g2 u :
  u ∈ units →
  values g1 (unit_cells u) ≡ₚ values g2 (unit_cells u) →
  outcome (run_routine (unit_thread g1 u))
  = outcome (run_routine (unit_thread g2 u)).
Proof.
  intros Hu Hperm. apply unit_outcome_eq; [done|].
  assert (Hiff :
    valid (outcome (run_routine (unit_thread g1 u))) = 1
    ↔ valid (outcome (run_routine (unit_thread g2 u))) = 1).
  { rewrite !unit_valid_iff. by rewrite Hperm. }
  destruct (unit_valid_cases g1 u) as [H1|H1],
           (unit_valid_cases g2 u) as [H2|H2];
    rewrite H1, H2 in *; [done | | | done].
  - destruct Hiff as [_ Hback]. by specialize (Hback eq_refl).
  - destruct Hiff as [Hforth _]. by specialize (Hforth eq_refl).
Qed.

Lemma verdict_invariant_under_rearrangement_witness :
  let g := set_cell (set_cell canonical 0 0 3) 0 1 5 in
  Unit Row 0 ∈ units
  ∧ values canonical (unit_cells (Unit Row 0)) ≡ₚ values g (unit_cells (Unit Row 0))
  ∧ outcome (run_routine (unit_thread canonical (Unit Row 0)))
    = outcome (run_routine (unit_thread g (Unit Row 0))).
Proof.
  intros g.
  assert (Hu : Unit Row 0 ∈ units).
  { refine (bool_decide_unpack _ _). by vm_compute. }
  assert (Hperm : values canonical (unit_cells (Unit Row 0))
                  ≡ₚ values g (unit_cells (Unit Row 0))).
  { refine (bool_decide_unpack _ _). by vm_compute. }
  split; [exact Hu|]. split; [exact Hperm|].
  exact (verdict_invariant_under_rearrangement canonical g (Unit Row 0) Hu Hperm).
Defined.

(** ** Messages identify their unit *)

Lemma report_injective u1 u2 ok1 ok2 :
  u1 ∈ units → u2 ∈ units →
  report u1 ok1 = report u2 ok2 → u1 = u2 ∧ ok1 = ok2.
Proof.
  assert (Forall (λ u1, Forall (λ u2, Forall (λ ok1, Forall (λ ok2,
            report u1 ok1 = report u2 ok2 → u1 = u2 ∧ ok1 = ok2)
            [true; false]) [true; false]) units) units) as Hall.
  { refine (bool_decide_unpack _ _). by vm_compute. }
  intros Hu1 Hu2.
  rewrite Forall_forall in Hall. specialize (Hall u1 Hu1).
  rewrite Forall_forall in Hall. specialize (Hall u2 Hu2).
  rewrite Forall_forall in Hall. specialize (Hall ok1).
  rewrite Forall_forall in Hall. apply Hall.
  - destruct ok1; [by left | by right; left].
  - destruct ok2; [by left | by right; left].
Qed.

(** X10. The line a check writes tells which unit wrote it and what it
    found: two outcomes with the same message, on any two grids, come from
    the same unit and carry the same [valid]. *)
Theorem message_identifies_unit_and_verdict g1 g2 u1 u2 :
  u1 ∈ units → u2 ∈ units →
  message (outcome (run_routine (unit_thread g1 u1)))
  = message (outcome (run_routine (unit_thread g2 u2))) →
  u1 = u2
  ∧ valid (outcome (run_routine (unit_thread g1 u1)))
    = valid (outcome (run_routine (unit_thread g2 u2))).
Proof.
  intros Hu1 Hu2. rewrite !unit_message by done. intros Heq.
  destruct (report_injective _ _ _ _ Hu1 Hu2 Heq) as [-> Hok].
  split; [done|].
  destruct (unit_valid_cases g1 u2) as [H1|H1],
           (unit_valid_cases g2 u2) as [H2|H2];
    rewrite H1, H2 in *; try done.
Qed.

Lemma message_identifies_unit_and_verdict_witness :
  let g := set_cell canonical 8 8 0 in
  Unit Row 3 ∈ units
  ∧ (message (outcome (run_routine (unit_thread canonical (Unit Row 3))))
     = message (outcome (run_routine (unit_thread g (Unit Row 3)))) →
     valid (outcome (run_routine (unit_thread canonical (Unit Row 3))))
     = valid (outcome (run_routine (unit_thread g (Unit Row 3))))).
Proof.
  intros g.
  assert (Hu : Unit Row 3 ∈ units).
  { refine (bool_decide_unpack _ _). by vm_compute. }
  split; [exact Hu|]. intros Heq.
  exact (proj2 (message_identifies_unit_and_verdict canonical g
                  (Unit Row 3) (Unit Row 3) Hu Hu Heq)).
Defined.

(** ** Array bounds *)








(** ** From the source to the summary line *)

(** X12. End to end: run on a source that holds a 9x9 grid in row-major
    order, the program exits with 0 and its last line says "a valid
    solution" when every row, column and subgrid of that grid is a
    permutation of 1-9 and "an INVALID solution" otherwise; what the array
    of [main] held before loading plays no part. *)
Theorem summary_line_decides_the_source argv fopen stack sched g extra :
  wf_grid g → wf_grid stack → length argv = 2%nat →
  fopen (default EmptyString (argv !! 1%nat))
  = Some (integers (concat g) ++ extra) →
  fair sched →
  let path := default EmptyString (argv !! 1%nat) in
  let out := main argv fopen stack sched in
  out = engine_run path g sched
  ∧ status out = EXIT_SUCCESS
  ∧ last (stdout out)
    = Some (if bool_decide (solved g)
            then path +:+ " contains a valid solution" +:+ newline
            else path +:+ " contains an INVALID solution" +:+ newline).
Proof.
  intros Hwf Hstack Hargc Hopen Hf path out. subst path out.
  destruct (loadSudoku_concat g extra stack Hwf Hstack)
    as (g' & Hload & Hwf' & Hcells).
  assert (g' = g) as -> by (by apply grid_ext).
  rewrite <- Hopen in Hload.
  rewrite (main_loaded _ _ _ _ g Hargc Hload).
  split; [done|]. split; [done|].
  rewrite engine_run_stdout_eq, last_snoc.
  by rewrite (validate_decides_solved g sched Hf).
Qed.

Lemma summary_line_decides_the_source_witness :
  let argv := ["sudoku"; "puzzle.txt"] in
  let fopen := one_file "puzzle.txt" (integers (concat canonical) ++ [Some 0]) in
  wf_grid canonical ∧ wf_grid zeros ∧ fair (rev (seq 0 NUM_THREADS))
  ∧ last (stdout (main argv fopen zeros (rev (seq 0 NUM_THREADS))))
    = Some ("puzzle.txt contains a valid solution" +:+ newline).
Proof.
  intros argv fopen.
  assert (Hwf : wf_grid canonical).
  { split; [reflexivity|]. repeat constructor. }
  destruct (summary_line_decides_the_source argv fopen zeros
    (rev (seq 0 NUM_THREADS)) canonical [Some 0] Hwf zeros_wf eq_refl eq_refl
    fair_reversed) as (_ & _ & Hlast).
  split; [exact Hwf|]. split; [exact zeros_wf|]. split; [exact fair_reversed|].
  rewrite Hlast. rewrite bool_decide_eq_true_2; [reflexivity|].
  exact canonical_solved.
Defined.
